(** * UMASH: a shallow embedding of [umash.c] and its specification

    The C code works on [uint64_t], [uint32_t], [size_t] and [__m128i]
    values.  Every machine integer is modelled as a [Z], and each place
    where the C arithmetic wraps around is written out with an explicit
    reduction modulo the width of the type. *)

From Stdlib Require Import ZArith List Lia Bool.
From Stdlib.Strings Require Import Byte.
From stdpp Require Import base list.
Import ListNotations.

Local Open Scope Z_scope.

(** ** Machine words *)

Module Word.

(** Conversion to [uint64_t] (and to [size_t]): reduction modulo 2^64. *)
Definition u64 (z : Z) : Z := z mod 2 ^ 64.

(** Conversion to [uint32_t]. *)
Definition u32 (z : Z) : Z := z mod 2 ^ 32.

(** Conversion to [uint8_t]. *)
Definition u8 (z : Z) : Z := z mod 2 ^ 8.

(** [__uint128_t] and [__m128i], seen as one 128-bit integer. *)
Definition u128 (z : Z) : Z := z mod 2 ^ 128.

Definition is_u64 (z : Z) : Prop := 0 <= z < 2 ^ 64.

(** [__builtin_uaddll_overflow(x, y, &sum)]: the flag tells whether the
    exact sum does not fit in 64 bits, and [sum] receives the wrapped sum. *)
Definition uaddll_overflow (x y : Z) : bool * Z :=
  (2 ^ 64 <=? x + y, u64 (x + y)).

(** The two 64-bit halves of a 128-bit vector. *)
Definition lo64 (v : Z) : Z := v mod 2 ^ 64.
Definition hi64 (v : Z) : Z := (v / 2 ^ 64) mod 2 ^ 64.

(** [_mm_cvtsi64_si128]: a 64-bit value in the low half, zero above. *)
Definition _mm_cvtsi64_si128 (a : Z) : Z := u64 a.

(** Carry-less product of [a] by the low [n] bits of [b]: the XOR of the
    shifted copies [a << i] for every set bit [i] of [b]. *)
Fixpoint clmul_bits (n : nat) (a b : Z) : Z :=
  match n with
  | O => 0
  | S n' =>
      Z.lxor (if Z.testbit b (Z.of_nat n') then Z.shiftl a (Z.of_nat n') else 0)
             (clmul_bits n' a b)
  end.

(** [_mm_clmulepi64_si128(a, b, imm)]: bit 0 of [imm] selects the half of
    [a], bit 4 the half of [b]; the result is their 64x64 -> 128 bit
    carry-less product. *)
Definition _mm_clmulepi64_si128 (a b imm : Z) : Z :=
  let ta := if Z.testbit imm 0 then hi64 a else lo64 a in
  let tb := if Z.testbit imm 4 then hi64 b else lo64 b in
  clmul_bits 64 ta tb.

End Word.

Import Word.

(** ** Memory reads

    The hash functions only read memory.  A pointer is an object and a byte
    offset into it; the objects are the caller's input buffer and the local
    array [zeros] of [vec_to_u64].  A computation that reads memory returns
    its value together with the list of the byte addresses it loaded, in
    program order. *)

Module Mem.

Inductive object : Set := Input | Zeros.

Record ptr : Set := mk_ptr { obj : object; off : Z }.

(** Contents of the input buffer, byte by byte.  Offsets are integers: the
    code forms addresses below the pointer it was given. *)
Definition memory : Type := Z -> byte.

Definition ptr_add (p : ptr) (k : Z) : ptr :=
  {| obj := obj p; off := off p + k |}.

Definition read_byte (mu : memory) (p : ptr) : byte :=
  match obj p with
  | Input => mu (off p)
  | Zeros => x00
  end.

Definition Read (A : Type) : Type := memory -> A * list ptr.

Definition ret {A} (a : A) : Read A := fun _ => (a, []).

Definition bind {A B} (m : Read A) (k : A -> Read B) : Read B :=
  fun mu =>
    let r := m mu in
    let s := k (fst r) mu in
    (fst s, snd r ++ snd s).

Definition value {A} (m : Read A) (mu : memory) : A := fst (m mu).
Definition trace {A} (m : Read A) (mu : memory) : list ptr := snd (m mu).

Definition load (p : ptr) : Read byte := fun mu => (read_byte mu p, [p]).

(** Little-endian value of a byte string. *)
Fixpoint le_combine (bs : list byte) : Z :=
  match bs with
  | [] => 0
  | b :: bs' => Z.of_N (Byte.to_N b) + 2 ^ 8 * le_combine bs'
  end.

Fixpoint load_bytes (n : nat) (p : ptr) : Read (list byte) :=
  match n with
  | O => ret []
  | S n' =>
      bind (load p) (fun b =>
      bind (load_bytes n' (ptr_add p 1)) (fun bs =>
      ret (b :: bs)))
  end.

(** [memcpy(&dst, src, n)] into an integer object [dst] of [n] bytes, on
    the little-endian target the code is written for. *)
Definition memcpy (src : ptr) (n : nat) : Read Z :=
  bind (load_bytes n src) (fun bs => ret (le_combine bs)).

(** A [while] or [for] loop over a state [S].  [fuel] bounds the number of
    iterations; every use below passes the trip count of the loop, and
    [while_exit] shows that the loop then stops because its condition is
    false. *)
Fixpoint while {S} (fuel : nat) (cond : S -> bool) (body : S -> Read S)
    (s : S) : Read S :=
  match fuel with
  | O => ret s
  | Datatypes.S fuel' =>
      if cond s then bind (body s) (while fuel' cond body) else ret s
  end.

End Mem.

Import Mem.

Notation "'let*' x ':=' m 'in' k" := (bind m (fun x => k))
  (at level 10, x pattern, m at level 100, k at level 200).

(** ** Constants and types of [umash.h] *)

(** Modelled from the spec: the header [umash.h] is not part of the source
    tree; the PH parameter count is 32. *)
Definition UMASH_PH_PARAM_COUNT : Z := 32.

(** Modelled from the spec: the header [umash.h] is not part of the source
    tree; the Toeplitz shift is 4 words. *)
Definition UMASH_PH_TOEPLITZ_SHIFT : Z := 4.

Definition BLOCK_SIZE : Z := 8 * UMASH_PH_PARAM_COUNT.

(** Modelled from the spec: [struct umash_params] of [umash.h], two
    polynomial pairs [poly[i]] = (pre-squared multiplier [poly[i][0]], base
    multiplier [poly[i][1]]) and a noise table [ph] of
    [UMASH_PH_PARAM_COUNT + UMASH_PH_TOEPLITZ_SHIFT] words. *)
Record umash_params : Type := mk_params {
  poly : list (Z * Z);
  ph : list Z
}.

Definition POLY_SIZE : nat := 2.
Definition PH_SIZE : nat := Z.to_nat (UMASH_PH_PARAM_COUNT + UMASH_PH_TOEPLITZ_SHIFT).

(** Modelled from the spec: [struct umash_ph] of [umash.h], the 128-bit PH
    accumulator as two 64-bit halves [bits[0]] (low) and [bits[1]] (high). *)
Record umash_ph : Type := mk_ph { bits : Z * Z }.

(** Modelled from the spec: [struct umash_fp] of [umash.h], the ordered
    pair of digests [hash[0]], [hash[1]]. *)
Record umash_fp : Type := mk_fp { hash : list Z }.

(** [memcpy(&ret, &acc, sizeof(ret))] from a [__m128i] to a [umash_ph]. *)
Definition ph_of_vec (acc : Z) : umash_ph := {| bits := (lo64 acc, hi64 acc) |}.

(** [&params->ph[shift]] as a [const uint64_t *]: the word at index [i]
    from that pointer.  Outside the table the C code has no defined
    behaviour; the model reads 0 there. *)
Definition ph_at (params : umash_params) (shift : Z) : Z -> Z :=
  fun i => nth (Z.to_nat (shift + i)) (ph params) 0.

(** [params->poly[which]]. *)
Definition poly_at (params : umash_params) (which : Z) : Z * Z :=
  nth (Z.to_nat which) (poly params) (0, 0).

(** ** Modular arithmetic utilities (mod 2^64 - 8) *)

Definition add_mod_fast (x y : Z) : Z :=
  let '(overflow, sum) := uaddll_overflow x y in
  (* If `sum` overflows, `sum + 8` does not. *)
  if overflow then u64 (sum + 8) else sum.

Definition add_mod_slow_slow_path (sum fixup : Z) : Z :=
  (* Reduce sum, mod 2**64 - 8. *)
  let sum := if u64 (-8) <=? sum then u64 (sum + 8) else sum in
  (* sum < 2**64 - 8, so this doesn't overflow. *)
  let sum := u64 (sum + fixup) in
  (* Reduce again. *)
  let sum := if u64 (-8) <=? sum then u64 (sum + 8) else sum in
  sum.

Definition add_mod_slow (x y : Z) : Z :=
  let fixup := 0 in
  let '(overflow, sum) := uaddll_overflow x y in
  (* x + y \equiv sum + fixup *)
  let fixup := if overflow then 8 else fixup in
  if sum <? u64 (-16) then u64 (sum + fixup)
  else add_mod_slow_slow_path sum fixup.

Definition mul_mod_fast (m x : Z) : Z :=
  let product := u128 m in
  let product := u128 (product * x) in
  add_mod_fast (u64 product) (u64 (8 * u64 (Z.shiftr product 64))).

Definition horner_double_update (acc m0 m1 x y : Z) : Z :=
  let acc := add_mod_fast acc x in
  add_mod_slow (mul_mod_fast m0 acc) (mul_mod_fast m1 y).

(** ** PH block compression *)

(** State of the compression loops: the index [i] in the noise table, the
    read pointer [block] and the accumulator [acc]. *)
Abbreviation ph_state := (Z * ptr * Z)%type (only parsing).

(** Body shared by the loops of [ph_one_block] and [ph_last_block]. *)
Definition ph_pair_step (params : Z -> Z) (st : ph_state) : Read ph_state :=
  let '(i, block, acc) := st in
  let* x := memcpy block 16 in
  let block := ptr_add block 16 in
  (* memcpy(&k, &params[i], sizeof(k)) *)
  let k := u64 (params i) + 2 ^ 64 * u64 (params (i + 1)) in
  let x := Z.lxor x k in
  let acc := Z.lxor acc (_mm_clmulepi64_si128 x x 1) in
  ret (i + 2, block, acc).

Definition ph_one_block (params : Z -> Z) (seed : Z) (block : ptr)
  : Read umash_ph :=
  let acc := _mm_cvtsi64_si128 seed in
  let* (_, _, acc) :=
    while (Z.to_nat ((UMASH_PH_PARAM_COUNT + 1) / 2))
      (fun '(i, _, _) => i <? UMASH_PH_PARAM_COUNT)
      (ph_pair_step params) (0, block, acc) in
  ret (ph_of_vec acc).

Definition ph_last_block (params : Z -> Z) (seed : Z) (block : ptr)
    (n_bytes : Z) : Read umash_ph :=
  let acc := _mm_cvtsi64_si128 seed in
  (* The final block processes `remaining > 0` bytes. *)
  let remaining := u64 (1 + u64 (n_bytes - 1) mod 16) in
  let end_full_pairs := u64 (n_bytes - remaining) / 8 in
  let last_ptr := ptr_add block (n_bytes - 16) in
  let* (i, _, acc) :=
    while (Z.to_nat ((end_full_pairs + 1) / 2))
      (fun '(i, _, _) => i <? end_full_pairs)
      (ph_pair_step params) (0, block, acc) in
  (* Compress the final (potentially partial) pair. *)
  let* x := memcpy last_ptr 8 in
  let last_ptr := ptr_add last_ptr 8 in
  let* y := memcpy last_ptr 8 in
  let x := Z.lxor x (params i) in
  let y := Z.lxor y (params (i + 1)) in
  let acc :=
    Z.lxor acc
      (_mm_clmulepi64_si128 (_mm_cvtsi64_si128 x) (_mm_cvtsi64_si128 y) 0) in
  ret (ph_of_vec acc).

(** ** Short UMASH (<= 8 bytes) *)

Definition zeros : ptr := {| obj := Zeros; off := 0 |}.

Definition vec_to_u64 (data : ptr) (n_bytes : Z) : Read Z :=
  let* (hi, lo) :=
    if 4 <=? n_bytes then
      let* lo := memcpy data 4 in
      let* hi := memcpy (ptr_add data (n_bytes - 4)) 4 in
      ret (hi, lo)
    else
      (* 0 <= n_bytes < 4.  Decode the size in binary. *)
      let* byte :=
        memcpy (if negb (Z.land n_bytes 1 =? 0) then data else zeros) 1 in
      let lo := byte in
      let* word :=
        memcpy (if negb (Z.land n_bytes 2 =? 0)
                then ptr_add data (n_bytes - 2) else zeros) 2 in
      let hi := word in
      ret (hi, lo) in
  ret (Z.lor (u64 (Z.shiftl hi 32)) (u32 (lo + hi))).

Definition umash_short (params : Z -> Z) (seed : Z) (data : ptr)
    (n_bytes : Z) : Read Z :=
  let seed := u64 (seed + params n_bytes) in
  let* h := vec_to_u64 data n_bytes in
  let h := Z.lxor h (Z.shiftr h 30) in
  let h := u64 (h * 0xbf58476d1ce4e5b9) in
  let h := Z.lxor (Z.lxor h seed) (Z.shiftr h 27) in
  let h := u64 (h * 0x94d049bb133111eb) in
  let h := Z.lxor h (Z.shiftr h 31) in
  ret h.

(** ** Medium and long UMASH *)

Definition finalize (x : Z) : Z :=
  let x := Z.lxor x (Z.shiftr x 27) in
  let x := u64 (x * 0x94d049bb133111eb) in
  x.

Definition umash_medium (multipliers : Z * Z) (ph : Z -> Z) (seed : Z)
    (data : ptr) (n_bytes : Z) : Read Z :=
  let acc := _mm_cvtsi64_si128 (Z.lxor seed n_bytes) in
  let* x := memcpy data 8 in
  let* y := memcpy (ptr_add data (n_bytes - 8)) 8 in
  let x := Z.lxor x (ph 0) in
  let y := Z.lxor y (ph 1) in
  let acc :=
    Z.lxor acc
      (_mm_clmulepi64_si128 (_mm_cvtsi64_si128 x) (_mm_cvtsi64_si128 y) 0) in
  ret (finalize
         (horner_double_update 0 (fst multipliers) (snd multipliers)
            (lo64 acc) (hi64 acc))).

(** State of the block loop of [umash_long]: [acc], [data], [n_bytes]. *)
Abbreviation long_state := (Z * ptr * Z)%type (only parsing).

Definition umash_long_step (multipliers : Z * Z) (ph : Z -> Z) (seed : Z)
    (st : long_state) : Read long_state :=
  let '(acc, data, n_bytes) := st in
  let* compressed := ph_one_block ph seed data in
  let data := ptr_add data BLOCK_SIZE in
  let n_bytes := u64 (n_bytes - BLOCK_SIZE) in
  let acc :=
    horner_double_update acc (fst multipliers) (snd multipliers)
      (fst (bits compressed)) (snd (bits compressed)) in
  ret (acc, data, n_bytes).

Definition umash_long (multipliers : Z * Z) (ph : Z -> Z) (seed : Z)
    (data : ptr) (n_bytes : Z) : Read Z :=
  let acc := 0 in
  let* (acc, data, n_bytes) :=
    while (Z.to_nat (n_bytes / BLOCK_SIZE))
      (fun '(_, _, n_bytes) => BLOCK_SIZE <? n_bytes)
      (umash_long_step multipliers ph seed) (acc, data, n_bytes) in
  (* Do the final block. *)
  let seed := Z.lxor seed (u8 n_bytes) in
  let* compressed := ph_last_block ph seed data n_bytes in
  let acc :=
    horner_double_update acc (fst multipliers) (snd multipliers)
      (fst (bits compressed)) (snd (bits compressed)) in
  ret (finalize acc).

(** ** Parameter preparation *)

Definition value_is_repeated (values : list Z) (n : nat) (needle : Z) : bool :=
  existsb (fun v => v =? needle) (firstn n values).

Definition modulo : Z := Z.shiftl 1 61 - 1.

(** State of [umash_params_prepare]: the key being rewritten in place and
    the index [buf_idx] of the next unused word of the pool [buf]. *)
Record prepare_state : Type := mk_state {
  st_params : umash_params;
  buf_idx : nat
}.

(** Result of a piece of [umash_params_prepare]: [Some (true, st)] when
    control reaches the end of that piece with state [st],
    [Some (false, st)] when the function executed [return false] in state
    [st], and [None] when the iteration bound of the model was reached
    ([prepare_total] shows that this never happens). *)
Definition prepare_result : Type := option (bool * prepare_state).

(** The macro [GET_RANDOM(DST)]: [None] stands for its [return false]. *)
Definition GET_RANDOM (buf : list Z) (idx : nat) : option (Z * nat) :=
  if (length buf <=? idx)%nat then None
  else Some (nth idx buf 0, S idx).

(** The rejection-sampling loop [while (true)] on the multiplier [f]. *)
Fixpoint sample_multiplier (fuel : nat) (buf : list Z) (idx : nat) (f : Z)
  : option (option (Z * nat)) :=
  match fuel with
  | O => None
  | S fuel' =>
      let f := Z.land f (Z.shiftl 1 61 - 1) in
      if negb (f =? 0) && (f <? modulo) then Some (Some (f, idx))
      else
        match GET_RANDOM buf idx with
        | None => Some None
        | Some (f, idx) => sample_multiplier fuel' buf idx f
        end
  end.

(** Body of the loop over [params->poly]. *)
Definition prepare_poly (buf : list Z) (i : nat) (st : prepare_state)
  : prepare_result :=
  let params := st_params st in
  let f := snd (nth i (poly params) (0, 0)) in
  match sample_multiplier (S (length buf)) buf (buf_idx st) f with
  | None => None
  | Some None => Some (false, st)
  | Some (Some (f, idx)) =>
      (* We can work in 2**64 - 8 and reduce after the fact. *)
      let pair := (mul_mod_fast f f mod modulo, f) in
      Some (true,
            {| st_params := {| poly := <[i := pair]> (poly params);
                               ph := ph params |};
               buf_idx := idx |})
  end.

(** The loop [while (value_is_repeated(params->ph, i, params->ph[i]))]. *)
Fixpoint replace_repeated (fuel : nat) (buf : list Z) (i : nat)
    (st : prepare_state) : prepare_result :=
  match fuel with
  | O => None
  | S fuel' =>
      let params := st_params st in
      if value_is_repeated (ph params) i (nth i (ph params) 0) then
        match GET_RANDOM buf (buf_idx st) with
        | None => Some (false, st)
        | Some (v, idx) =>
            replace_repeated fuel' buf i
              {| st_params := {| poly := poly params;
                                 ph := <[i := v]> (ph params) |};
                 buf_idx := idx |}
        end
      else Some (true, st)
  end.

Definition prepare_noise (buf : list Z) (i : nat) (st : prepare_state)
  : prepare_result :=
  replace_repeated (S (length buf)) buf i st.

(** [for (size_t i = 0; i < ARRAY_SIZE(...); i++) body], left as soon as
    the body returns from the function. *)
Fixpoint for_each (indices : list nat)
    (body : nat -> prepare_state -> prepare_result) (st : prepare_state)
  : prepare_result :=
  match indices with
  | [] => Some (true, st)
  | i :: rest =>
      match body i st with
      | Some (true, st') => for_each rest body st'
      | r => r
      end
  end.

(** The function returns its boolean and leaves the key as rewritten up to
    that point. *)
Definition umash_params_prepare (params : umash_params)
  : option (bool * umash_params) :=
  let buf := [fst (nth 0%nat (poly params) (0, 0));
              fst (nth 1%nat (poly params) (0, 0))] in
  let st := {| st_params := params; buf_idx := 0 |} in
  (* Check the polynomial multipliers: we don't want 0s. *)
  match for_each (seq 0 POLY_SIZE) (prepare_poly buf) st with
  | Some (true, st) =>
      (* Avoid repeated PH noise values. *)
      match for_each (seq 0 PH_SIZE) (prepare_noise buf) st with
      | Some (b, st) => Some (b, st_params st)
      | None => None
      end
  | Some (false, st) => Some (false, st_params st)
  | None => None
  end.

(** ** Public dispatch *)

Definition umash_full (params : umash_params) (seed which : Z) (data : ptr)
    (n_bytes : Z) : Read Z :=
  let shift := if which =? 0 then 0 else UMASH_PH_TOEPLITZ_SHIFT in
  let which := if which =? 0 then 0 else 1 in
  if n_bytes <=? 16 then
    if n_bytes <=? 8 then
      umash_short (ph_at params shift) seed data n_bytes
    else
      umash_medium (poly_at params which) (ph_at params shift) seed data
        n_bytes
  else
    umash_long (poly_at params which) (ph_at params shift) seed data n_bytes.

(** The loops [for (size_t i = 0, shift = 0; i < 2; i++, shift =
    toeplitz_shift)] of [umash_fprint], over the state [i], [shift] and the
    struct [ret]; [one i shift] is the hash computed by the body. *)
Definition fprint_loop (one : Z -> Z -> Read Z) (toeplitz_shift : Z)
    (ret0 : umash_fp) : Read umash_fp :=
  let* (_, _, r) :=
    while 2 (fun '(i, _, _) => i <? 2)
      (fun '(i, shift, r) =>
         let* h := one i shift in
         ret (i + 1, toeplitz_shift,
              {| hash := <[Z.to_nat i := h]> (hash r) |}))
      (0, 0, ret0) in
  ret r.

Definition umash_fprint (params : umash_params) (seed : Z) (data : ptr)
    (n_bytes : Z) : Read umash_fp :=
  (* `struct umash_fp ret;`: both slots are written before it is returned. *)
  let ret0 := {| hash := [0; 0] |} in
  let toeplitz_shift := UMASH_PH_TOEPLITZ_SHIFT in
  if n_bytes <=? 16 then
    if n_bytes <=? 8 then
      fprint_loop
        (fun i shift => umash_short (ph_at params shift) seed data n_bytes)
        toeplitz_shift ret0
    else
      fprint_loop
        (fun i shift =>
           umash_medium (poly_at params i) (ph_at params shift) seed data
             n_bytes)
        toeplitz_shift ret0
  else
    fprint_loop
      (fun i shift =>
         umash_long (poly_at params i) (ph_at params shift) seed data n_bytes)
      toeplitz_shift ret0.

(** * Specification-side definitions

    The definitions below are not part of the code: they word the
    statements that the code is compared with. *)

(** The finaliser in the three steps of the written specification:
    xorshift 27, multiply, xorshift 31. *)
Definition finalize_spec (x : Z) : Z :=
  let x := Z.lxor x (Z.shiftr x 27) in
  let x := (x * 0x94D049BB133111EB) mod 2 ^ 64 in
  let x := Z.lxor x (Z.shiftr x 31) in
  x.

(** First half of the short mixer: xorshift 30, multiply, xorshift 27. *)
Definition short_mix_pre (h : Z) : Z :=
  let h := Z.lxor h (Z.shiftr h 30) in
  let h := (h * 0xBF58476D1CE4E5B9) mod 2 ^ 64 in
  Z.lxor h (Z.shiftr h 27).

(** Second half of the short mixer: multiply, xorshift 31. *)
Definition short_mix_post (h : Z) : Z :=
  let h := (h * 0x94D049BB133111EB) mod 2 ^ 64 in
  Z.lxor h (Z.shiftr h 31).

(** The short mixer with the word [k] XORed in between its two halves. *)
Definition short_mix (h k : Z) : Z :=
  short_mix_post (Z.lxor (short_mix_pre h) k).

(** The short path as the written specification has it: the injected word
    is [seed XOR noise[n]]. *)
Definition umash_short_spec (params : Z -> Z) (seed : Z) (data : ptr)
    (n_bytes : Z) : Read Z :=
  let* h := vec_to_u64 data n_bytes in
  ret (short_mix h (Z.lxor seed (params n_bytes))).

(** A pointer to byte [d] of the input buffer. *)
Definition input (d : Z) : ptr := {| obj := Input; off := d |}.

(** The input buffer filled with zero bytes. *)
Definition zero_memory : memory := fun _ => x00.

(** An input buffer that holds the bytes [bs] from offset 0, with 0xFF
    padding on both sides. *)
Definition bytes_memory (bs : list byte) : memory :=
  fun o => if o <? 0 then xff else nth (Z.to_nat o) bs xff.

(** The addresses of the [n] bytes starting at [p]. *)
Fixpoint span (p : ptr) (n : nat) : list ptr :=
  match n with
  | O => []
  | S n' => p :: span (ptr_add p 1) n'
  end.

(** The offsets of the input-buffer bytes among the addresses [tr]. *)
Definition input_offsets (tr : list ptr) : list Z :=
  omap (fun q => match obj q with Input => Some (off q) | Zeros => None end) tr.

(** A key that satisfies the prepared-key invariants: both polynomial pairs
    are (1, 1) and the noise words are 1, 2, ..., 36. *)
Definition example_key : umash_params :=
  {| poly := [(1, 1); (1, 1)];
     ph := map Z.of_nat (seq 1 PH_SIZE) |}.

(** The shape of [struct umash_params]: two polynomial pairs and
    [UMASH_PH_PARAM_COUNT + UMASH_PH_TOEPLITZ_SHIFT] noise words. *)
Definition well_formed (k : umash_params) : Prop :=
  length (poly k) = POLY_SIZE /\ length (ph k) = PH_SIZE.

(** A polynomial pair [(poly[i][0], poly[i][1])] of a prepared key: the
    base multiplier is strictly between 0 and 2^61 - 1 and the pre-squared
    slot is its square modulo 2^61 - 1. *)
Definition multiplier_ok (p : Z * Z) : Prop :=
  0 < snd p < 2 ^ 61 - 1 /\ fst p = (snd p * snd p) mod (2 ^ 61 - 1).

(** The prepared-key invariants. *)
Definition prepared (k : umash_params) : Prop :=
  Forall multiplier_ok (poly k) /\ NoDup (ph k).

(** A raw key whose first base multiplier is 0 and whose noise word 5
    repeats noise word 2: preparation draws both words of its pool. *)
Definition raw_key : umash_params :=
  {| poly := [(123456789, 0); (987654321, 2 ^ 61 + 3)];
     ph := <[5%nat := 3]> (map Z.of_nat (seq 1 PH_SIZE)) |}.

(** A raw key whose pool holds no valid multiplier. *)
Definition exhausted_key : umash_params :=
  {| poly := [(0, 0); (2 ^ 61 - 1, 2 ^ 61 + 3)];
     ph := map Z.of_nat (seq 1 PH_SIZE) |}.

(** Two noise tables hold the same words at the indices in [A]. *)
Definition agree_on (A : nat -> Prop) (t t' : list Z) : Prop :=
  forall i, A i -> nth i t 0 = nth i t' 0.

(** Half [i] of the fingerprint, as a function of the key. *)
Definition fprint_half (i : nat) (seed : Z) (data : ptr) (n_bytes : Z)
    (mu : memory) (k : umash_params) : Z :=
  nth i (hash (value (umash_fprint k seed data n_bytes) mu)) 0.

(** [h] depends only on the noise words at the indices in [A]: every
    prepared key with the polynomial pairs of [k] and the same noise words
    as [k] at those indices gives the same value. *)
Definition noise_footprint (h : umash_params -> Z) (k : umash_params)
    (A : nat -> Prop) : Prop :=
  forall k', well_formed k' -> prepared k' -> poly k' = poly k ->
    agree_on A (ph k) (ph k') -> h k' = h k.

(** The two noise slices: [UMASH_PH_PARAM_COUNT] words from offset 0, and
    as many from the Toeplitz offset. *)
Definition slice0 (i : nat) : Prop :=
  (i < Z.to_nat UMASH_PH_PARAM_COUNT)%nat.
Definition slice1 (i : nat) : Prop :=
  (Z.to_nat UMASH_PH_TOEPLITZ_SHIFT <= i
   < Z.to_nat (UMASH_PH_TOEPLITZ_SHIFT + UMASH_PH_PARAM_COUNT))%nat.

(** The two halves of the fingerprint of an input are computed from
    disjoint sets of noise words, one in each slice. *)
Definition disjoint_noise (k : umash_params) (seed : Z) (data : ptr)
    (n_bytes : Z) (mu : memory) : Prop :=
  exists A B : nat -> Prop,
    (forall i, A i -> slice0 i) /\ (forall i, B i -> slice1 i)
    /\ (forall i, A i -> B i -> False)
    /\ noise_footprint (fprint_half 0 seed data n_bytes mu) k A
    /\ noise_footprint (fprint_half 1 seed data n_bytes mu) k B.

(** The noise words that a hash of [n] bytes reads, as indices from the
    start of its slice: the word [n] on the short path, the first two on
    the medium path, one pair per 16-byte chunk of the last block on the
    long path and, past one block, all [UMASH_PH_PARAM_COUNT] words. *)
Definition noise_used (n i : Z) : Prop :=
  if n <=? 8 then i = n
  else if n <=? 16 then 0 <= i < 2
  else if n <=? 256 then 0 <= i < 2 * ((n - 1) / 16) + 2
  else 0 <= i < UMASH_PH_PARAM_COUNT.

(** [example_key] with noise word 4 changed from 5 to 100. *)
Definition example_key_4 : umash_params :=
  {| poly := poly example_key; ph := <[4%nat := 100]> (ph example_key) |}.

(** The inverse of [x <- x XOR (x >> s)] on 64-bit words, for a shift [s]
    of at least 22 bits. *)
Definition unxorshift (s y : Z) : Z :=
  Z.lxor (Z.lxor y (Z.shiftr y s)) (Z.shiftr y (2 * s)).

(** The inverses modulo 2^64 of the two odd multipliers of the mixers. *)
Definition INV_BF58 : Z := 0x96DE1B173F119089.
Definition INV_94D0 : Z := 0x319642B2D24D8EC3.

(** The inverse of [finalize]: undo the multiplication, then the
    xorshift. *)
Definition finalize_inverse (z : Z) : Z :=
  unxorshift 27 ((z * INV_94D0) mod 2 ^ 64).

(** The inverses of the two halves of the short mixer. *)
Definition short_mix_post_inverse (z : Z) : Z :=
  (unxorshift 31 z * INV_94D0) mod 2 ^ 64.
Definition short_mix_pre_inverse (z : Z) : Z :=
  unxorshift 30 ((unxorshift 27 z * INV_BF58) mod 2 ^ 64).

(** The byte at offset [o] of the input buffer, as an integer. *)
Definition byte_at (mu : memory) (o : Z) : Z := Z.of_N (Byte.to_N (mu o)).

(** The little-endian value of the [len] input bytes from offset [o]. *)
Fixpoint le_word (mu : memory) (o : Z) (len : nat) : Z :=
  match len with
  | O => 0
  | S len' => byte_at mu o + 2 ^ 8 * le_word mu (o + 1) len'
  end.

(** The words of a key are [uint64_t]. *)
Definition noise_is_u64 (k : umash_params) : Prop := Forall is_u64 (ph k).

(** A raw multiplier is usable as it is: its low 61 bits are neither 0 nor
    2^61 - 1. *)
Definition usable_multiplier (f : Z) : Prop :=
  0 < Z.land f (2 ^ 61 - 1) < 2 ^ 61 - 1.

(** The polynomial pair that preparation derives from a usable raw
    multiplier: its low 61 bits and their square modulo 2^61 - 1. *)
Definition derived_pair (p : Z * Z) : Z * Z :=
  let f := Z.land (snd p) (2 ^ 61 - 1) in ((f * f) mod (2 ^ 61 - 1), f).

(** Two memories hold the same bytes at the addresses [tr]. *)
Definition same_reads (mu1 mu2 : memory) (tr : list ptr) : Prop :=
  Forall (fun q => read_byte mu1 q = read_byte mu2 q) tr.

(** A computation whose result is determined by the bytes it loads: it
    gives the same value and loads the same addresses in every memory
    that agrees with the first on the addresses loaded there. *)
Definition respects {A} (m : Read A) : Prop :=
  forall mu1 mu2, same_reads mu1 mu2 (trace m mu1) -> m mu1 = m mu2.

(** One step of the polynomial hash in the field of 2^61 - 1, carried
    modulo 2^64 - 8 = 8 * (2^61 - 1): the accumulator absorbs the two
    halves of a PH value with the pair of multipliers [m]. *)
Definition horner_step (m : Z * Z) (acc : Z) (c : umash_ph) : Z :=
  (fst m * (acc + fst (bits c)) + snd m * snd (bits c)) mod (2 ^ 64 - 8).

(** The PH values of the blocks of a long input, in order: [k] full blocks
    compressed with the seed, then the last block of the remaining bytes,
    compressed with the seed XOR the low byte of their number. *)
Fixpoint long_blocks (k : nat) (p : Z -> Z) (seed : Z) (data : ptr) (n : Z)
    (mu : memory) : list umash_ph :=
  match k with
  | O => [value (ph_last_block p (Z.lxor seed (u8 n)) data n) mu]
  | S k' =>
      value (ph_one_block p seed data) mu
      :: long_blocks k' p seed (ptr_add data BLOCK_SIZE) (n - BLOCK_SIZE) mu
  end.

(** The carry-less product of one keyed pair of 64-bit words: the word at
    offset [o + 8] XOR noise word [i + 1], by the word at offset [o] XOR
    noise word [i]. *)
Definition ph_pair (p : Z -> Z) (mu : memory) (o i : Z) : Z :=
  clmul_bits 64
    (Z.lxor (le_word mu (o + 8) 8) (u64 (p (i + 1))))
    (Z.lxor (le_word mu o 8) (u64 (p i))).

(** The XOR of [acc] and of the products of [count] consecutive pairs, from
    offset [o] and noise index [i]. *)
Fixpoint ph_pairs (count : nat) (p : Z -> Z) (mu : memory) (o i acc : Z) : Z :=
  match count with
  | O => acc
  | S count' =>
      ph_pairs count' p mu (o + 16) (i + 2) (Z.lxor acc (ph_pair p mu o i))
  end.

(** The key of the second hash of a fingerprint, seen as a key of its
    own: the second polynomial pair, and the noise words from the Toeplitz
    offset on. *)
Definition second_key (k : umash_params) : umash_params :=
  {| poly := drop 1 (poly k);
     ph := drop (Z.to_nat UMASH_PH_TOEPLITZ_SHIFT) (ph k) |}.

(** * Properties *)

(** ** Machine words *)

Lemma u64_range z : is_u64 (u64 z).
Proof. unfold is_u64, u64. apply Z.mod_pos_bound. lia. Qed.

(** [(x + 1) * (x + 1) = x^2 + 1] and [(x + 1) * (x^2 + x + 1) = x^3 + 1]
    over GF(2); the immediate 1 multiplies the high half of the first
    operand by the low half of the second. *)
Example clmul_carryless :
  _mm_clmulepi64_si128 3 3 0 = 5
  /\ _mm_clmulepi64_si128 (2 ^ 64 * 3 + 7) (2 ^ 64 * 3 + 7) 1 = 9.
Proof. split; reflexivity. Qed.

Example memcpy_little_endian :
  value (memcpy (input 1) 2) (bytes_memory [x61; x62; x63]) = 0x6362.
Proof. reflexivity. Qed.

(** ** Modular arithmetic *)

Ltac split_compare :=
  repeat match goal with
         | |- context [Z.leb ?a ?b] => destruct (Z.leb_spec a b)
         | |- context [Z.ltb ?a ?b] => destruct (Z.ltb_spec a b)
         end.

Ltac word_arith :=
  unfold is_u64, u64, u128 in *; split_compare;
  Z.div_mod_to_equations; lia.

Lemma add_mod_fast_range x y : is_u64 (add_mod_fast x y).
Proof.
  unfold add_mod_fast, uaddll_overflow.
  destruct (Z.leb_spec (2 ^ 64) (x + y)); apply u64_range.
Qed.

(** The fast addition is congruent to the exact sum as long as the
    correction [sum + 8] does not wrap a second time. *)
Lemma add_mod_fast_congr x y :
  is_u64 x -> is_u64 y -> x + y < 2 ^ 65 - 8 ->
  add_mod_fast x y mod (2 ^ 64 - 8) = (x + y) mod (2 ^ 64 - 8).
Proof.
  intros Hx Hy Hs. unfold add_mod_fast, uaddll_overflow. word_arith.
Qed.

Lemma add_mod_slow_reduces x y :
  is_u64 x -> is_u64 y -> add_mod_slow x y = (x + y) mod (2 ^ 64 - 8).
Proof.
  intros Hx Hy.
  unfold add_mod_slow, add_mod_slow_slow_path, uaddll_overflow. word_arith.
Qed.

(** C6: for all 64-bit [x] and [y], [add_mod_slow x y] is congruent to
    [x + y] modulo 2^64 - 8 and is strictly below 2^64 - 8; when the wrapped
    sum lies in [2^64 - 16, 2^64 - 1] the result is the one of the slow
    fix-up path. *)
Theorem add_mod_slow_correct x y :
  is_u64 x -> is_u64 y ->
  add_mod_slow x y mod (2 ^ 64 - 8) = (x + y) mod (2 ^ 64 - 8)
  /\ 0 <= add_mod_slow x y < 2 ^ 64 - 8
  /\ (2 ^ 64 - 16 <= u64 (x + y) ->
      add_mod_slow x y =
      add_mod_slow_slow_path (u64 (x + y))
        (if 2 ^ 64 <=? x + y then 8 else 0)).
Proof.
  intros Hx Hy. rewrite (add_mod_slow_reduces x y Hx Hy).
  split; [apply Z.mod_mod; lia|].
  split; [apply Z.mod_pos_bound; lia|].
  intros Hs. rewrite <- (add_mod_slow_reduces x y Hx Hy).
  unfold add_mod_slow, uaddll_overflow.
  destruct (Z.ltb_spec (u64 (x + y)) (u64 (-16))) as [Hlt|Hge]; [|reflexivity].
  exfalso. revert Hs Hlt. unfold u64. intros Hs Hlt.
  change ((-16) mod 2 ^ 64) with (2 ^ 64 - 16) in Hlt. lia.
Qed.

(** At [x = y = 2^64 - 1] the sum wraps to 2^64 - 2 and the slow path runs. *)
Lemma add_mod_slow_correct_witness :
  add_mod_slow (2 ^ 64 - 1) (2 ^ 64 - 1) mod (2 ^ 64 - 8)
  = ((2 ^ 64 - 1) + (2 ^ 64 - 1)) mod (2 ^ 64 - 8)
  /\ 0 <= add_mod_slow (2 ^ 64 - 1) (2 ^ 64 - 1) < 2 ^ 64 - 8
  /\ (2 ^ 64 - 16 <= u64 ((2 ^ 64 - 1) + (2 ^ 64 - 1)) ->
      add_mod_slow (2 ^ 64 - 1) (2 ^ 64 - 1) =
      add_mod_slow_slow_path (u64 ((2 ^ 64 - 1) + (2 ^ 64 - 1)))
        (if 2 ^ 64 <=? (2 ^ 64 - 1) + (2 ^ 64 - 1) then 8 else 0)).
Proof.
  apply (add_mod_slow_correct (2 ^ 64 - 1) (2 ^ 64 - 1));
    unfold is_u64; lia.
Defined.

(** The fast product, modulo 2^64 - 8: when [8 * high] wraps, that is
    when the exact product reaches 2^125, each multiple of 2^64 lost in the
    wrap takes 8 off the residue. *)
Lemma mul_mod_fast_value m x :
  is_u64 m -> is_u64 x ->
  mul_mod_fast m x mod (2 ^ 64 - 8)
  = (m * x - 8 * (m * x / 2 ^ 125)) mod (2 ^ 64 - 8).
Proof.
  intros Hm Hx. unfold mul_mod_fast.
  assert (Hp : 0 <= m * x < 2 ^ 128) by (unfold is_u64 in *; nia).
  replace (u128 (u128 m * x)) with (m * x).
  2:{ unfold u128. rewrite (Z.mod_small m) by (unfold is_u64 in *; lia).
      rewrite Z.mod_small; lia. }
  rewrite Z.shiftr_div_pow2 by lia.
  set (p := m * x) in *.
  rewrite add_mod_fast_congr.
  - unfold u64. Z.div_mod_to_equations. lia.
  - apply u64_range.
  - apply u64_range.
  - unfold u64. Z.div_mod_to_equations. lia.
Qed.

Lemma mul_mod_fast_exact m x :
  is_u64 m -> is_u64 x -> m * x < 2 ^ 125 ->
  mul_mod_fast m x mod (2 ^ 64 - 8) = (m * x) mod (2 ^ 64 - 8).
Proof.
  intros Hm Hx Hlt. rewrite (mul_mod_fast_value m x Hm Hx).
  assert (Hp : 0 <= m * x) by (unfold is_u64 in *; nia).
  rewrite (Z.div_small (m * x)) by lia. f_equal. lia.
Qed.

(** C7 (as amended): for 64-bit [m] and [x], [mul_mod_fast m x] is
    congruent to the integer product [m * x] modulo 2^64 - 8 exactly when
    the product is below 2^125, i.e. when the high half of the 128-bit
    product is below 2^61 and [8 * high] does not wrap. *)
Theorem mul_mod_fast_congr m x :
  is_u64 m -> is_u64 x ->
  (mul_mod_fast m x mod (2 ^ 64 - 8) = (m * x) mod (2 ^ 64 - 8)
   <-> m * x < 2 ^ 125).
Proof.
  intros Hm Hx. split; [|now apply mul_mod_fast_exact].
  rewrite (mul_mod_fast_value m x Hm Hx).
  assert (Hp : 0 <= m * x < 2 ^ 128) by (unfold is_u64 in *; nia).
  set (p := m * x) in *.
  intros Heq. destruct (Z.lt_ge_cases p (2 ^ 125)) as [|Hge]; [assumption|].
  exfalso. revert Heq. Z.div_mod_to_equations. lia.
Qed.

(** The largest multiplier of a prepared key, with the largest 64-bit
    operand. *)
Lemma mul_mod_fast_congr_witness :
  mul_mod_fast (2 ^ 61 - 2) (2 ^ 64 - 1) mod (2 ^ 64 - 8)
  = ((2 ^ 61 - 2) * (2 ^ 64 - 1)) mod (2 ^ 64 - 8)
  <-> (2 ^ 61 - 2) * (2 ^ 64 - 1) < 2 ^ 125.
Proof.
  apply (mul_mod_fast_congr (2 ^ 61 - 2) (2 ^ 64 - 1)); unfold is_u64; lia.
Defined.

(** C7 as stated fails: with [m = x = 2^63] the high half of the product is
    2^62, [8 * high] wraps to 0, and the result 0 is not congruent to the
    product 2^126 (which is 16 modulo 2^64 - 8). *)
Lemma mul_mod_fast_not_congr :
  is_u64 (2 ^ 63)
  /\ mul_mod_fast (2 ^ 63) (2 ^ 63) = 0
  /\ (2 ^ 63 * 2 ^ 63) mod (2 ^ 64 - 8) = 16
  /\ mul_mod_fast (2 ^ 63) (2 ^ 63) mod (2 ^ 64 - 8)
     <> (2 ^ 63 * 2 ^ 63) mod (2 ^ 64 - 8).
Proof.
  split; [unfold is_u64; lia|]. vm_compute. repeat split. discriminate.
Qed.

(** The multipliers of a prepared key are below 2^61: the fast product is
    then always congruent to the exact one. *)
Lemma mul_mod_fast_small_multiplier m x :
  0 <= m < 2 ^ 61 -> is_u64 x ->
  mul_mod_fast m x mod (2 ^ 64 - 8) = (m * x) mod (2 ^ 64 - 8).
Proof.
  intros Hm Hx. apply mul_mod_fast_exact; unfold is_u64 in *; try lia. nia.
Qed.

(** ** The finaliser *)

(** C1 (as amended): [finalize] has two steps, xorshift 27 and the
    multiplication by 0x94D049BB133111EB modulo 2^64; the third step of the
    written specification, xorshift 31, is not applied. *)
Theorem finalize_two_steps x :
  finalize x = (Z.lxor x (x / 2 ^ 27) * 0x94D049BB133111EB) mod 2 ^ 64
  /\ finalize_spec x = Z.lxor (finalize x) (finalize x / 2 ^ 31).
Proof.
  unfold finalize_spec, finalize, u64.
  rewrite !Z.shiftr_div_pow2 by lia. split; reflexivity.
Qed.

(** C1 as stated fails: at [x = 1] the code returns 0x94D049BB133111EB,
    the three-step finaliser 0x94D049BA3A91829D. *)
Lemma finalize_not_three_steps :
  finalize 1 = 0x94D049BB133111EB
  /\ finalize_spec 1 = 0x94D049BA3A91829D
  /\ finalize 1 <> finalize_spec 1.
Proof. vm_compute. repeat split. discriminate. Qed.

(** ** Memory reads *)

Lemma value_bind {A B} (m : Read A) (k : A -> Read B) mu :
  value (bind m k) mu = value (k (value m mu)) mu.
Proof. reflexivity. Qed.

Lemma trace_bind {A B} (m : Read A) (k : A -> Read B) mu :
  trace (bind m k) mu = trace m mu ++ trace (k (value m mu)) mu.
Proof. reflexivity. Qed.

Lemma trace_ret {A} (a : A) mu : trace (ret a) mu = [].
Proof. reflexivity. Qed.

Lemma trace_pair_ret {A B C} (v : A * B) (f : A -> B -> C) mu :
  trace (let '(a, b) := v in ret (f a b)) mu = [].
Proof. destruct v. reflexivity. Qed.

Lemma trace_load_bytes n : forall p mu, trace (load_bytes n p) mu = span p n.
Proof.
  induction n as [|n IH]; intros p mu; [reflexivity|].
  cbn [load_bytes span]. rewrite trace_bind, trace_bind, IH, trace_ret.
  cbn. now rewrite app_nil_r.
Qed.

Lemma trace_memcpy p n mu : trace (memcpy p n) mu = span p n.
Proof.
  unfold memcpy. rewrite trace_bind, trace_load_bytes, trace_ret.
  apply app_nil_r.
Qed.

Create Rewrite HintDb read_trace.
#[local] Hint Rewrite @trace_bind @trace_ret trace_memcpy app_nil_r : read_trace.

Lemma span_bounds len : forall p q,
  In q (span p len) ->
  obj q = obj p /\ off p <= off q < off p + Z.of_nat len.
Proof.
  induction len as [|len IH]; intros p q Hin; [destruct Hin|].
  cbn [span] in Hin. destruct Hin as [<-|Hin]; [split; [reflexivity|lia]|].
  apply IH in Hin. cbn in Hin. destruct Hin as [Ho Hb].
  split; [exact Ho | lia].
Qed.

Lemma Forall_span (P : ptr -> Prop) p len :
  (forall q, obj q = obj p -> off p <= off q < off p + Z.of_nat len -> P q) ->
  Forall P (span p len).
Proof.
  intros H. apply Forall_forall. intros q Hq.
  apply list_elem_of_In, span_bounds in Hq. destruct Hq. now apply H.
Qed.

Lemma Forall_input_offsets (P : Z -> Prop) tr :
  Forall P (input_offsets tr)
  <-> Forall (fun q => obj q = Input -> P (off q)) tr.
Proof.
  unfold input_offsets. induction tr as [|q tr IH]; cbn.
  - split; constructor.
  - destruct (obj q) eqn:Ho; cbn.
    + rewrite !Forall_cons, IH. intuition.
    + rewrite Forall_cons, IH. split.
      * intros H. split; [intros Hc; congruence | exact H].
      * intros [_ H]. exact H.
Qed.

(** ** Loops *)

Section WhileRules.

Context {S : Type}.

(** Invariant rule for [while]: an invariant [I] of the state that the
    body preserves still holds at the end, and a property [P] of the
    addresses read by each iteration holds of all the addresses read. *)
Lemma while_invariant (I : S -> Prop) (P : ptr -> Prop)
    (cond : S -> bool) (body : S -> Read S) mu :
  (forall s, I s -> cond s = true ->
     I (value (body s) mu) /\ Forall P (trace (body s) mu)) ->
  forall fuel s, I s ->
    I (value (while fuel cond body s) mu)
    /\ Forall P (trace (while fuel cond body s) mu).
Proof.
  intros Hbody fuel. induction fuel as [|fuel IH]; intros s Hs.
  - split; [exact Hs | constructor].
  - cbn [while]. destruct (cond s) eqn:Hc.
    + destruct (Hbody s Hs Hc) as [Hi Hp].
      destruct (IH _ Hi) as [Hi' Hp'].
      rewrite value_bind, trace_bind. split; [exact Hi'|].
      apply Forall_app. split; assumption.
    + split; [exact Hs | constructor].
Qed.

(** A loop whose body decreases a measure stops because its condition is
    false as soon as the iteration bound is at least the initial measure. *)
Lemma while_exit (I : S -> Prop) (measure : S -> nat)
    (cond : S -> bool) (body : S -> Read S) mu :
  (forall s, I s -> cond s = true ->
     I (value (body s) mu)
     /\ (measure (value (body s) mu) < measure s)%nat) ->
  forall fuel s, I s -> (measure s <= fuel)%nat ->
    cond (value (while fuel cond body s) mu) = false.
Proof.
  intros Hbody fuel. induction fuel as [|fuel IH]; intros s Hs Hm.
  - cbn. destruct (cond s) eqn:Hc; [|reflexivity].
    destruct (Hbody s Hs Hc) as [_ Hlt]. lia.
  - cbn [while]. destruct (cond s) eqn:Hc.
    + destruct (Hbody s Hs Hc) as [Hi Hlt].
      rewrite value_bind. apply IH; [exact Hi | lia].
    + exact Hc.
Qed.

(** Two loops whose bodies agree on every state that satisfies an
    invariant agree. *)
Lemma while_ext (I : S -> Prop) (cond : S -> bool)
    (body body' : S -> Read S) mu :
  (forall s, I s -> cond s = true ->
     body s mu = body' s mu /\ I (value (body s) mu)) ->
  forall fuel s, I s ->
    while fuel cond body s mu = while fuel cond body' s mu.
Proof.
  intros Hbody fuel. induction fuel as [|fuel IH]; intros s Hs; [reflexivity|].
  cbn [while]. destruct (cond s) eqn:Hc; [|reflexivity].
  destruct (Hbody s Hs Hc) as [Heq Hi].
  unfold bind. rewrite <- Heq. unfold value in Hi.
  rewrite (IH _ Hi). reflexivity.
Qed.

Lemma while_false fuel (cond : S -> bool) (body : S -> Read S) s :
  cond s = false -> while fuel cond body s = ret s.
Proof. intros H. destruct fuel; cbn [while]; [|rewrite H]; reflexivity. Qed.

End WhileRules.

(** ** The short path *)

Lemma vec_to_u64_trace d n mu :
  0 <= n <= 8 ->
  input_offsets (trace (vec_to_u64 (input d) n) mu)
  = if 4 <=? n then [d; d + 1; d + 2; d + 3;
                     d + (n - 4); d + (n - 4) + 1; d + (n - 4) + 2;
                     d + (n - 4) + 3]
    else (if Z.odd n then [d] else [])
         ++ (if 2 <=? n then [d + (n - 2); d + (n - 2) + 1] else []).
Proof.
  intros Hn.
  assert (Hc : n = 0 \/ n = 1 \/ n = 2 \/ n = 3 \/ n = 4 \/ n = 5 \/ n = 6
               \/ n = 7 \/ n = 8) by lia.
  unfold vec_to_u64. rewrite trace_bind, trace_pair_ret, app_nil_r.
  repeat destruct Hc as [->|Hc]; try subst n;
    cbn [Z.leb Z.compare Pos.compare Pos.compare_cont Z.land Pos.land Z.eqb
         negb Z.odd];
    rewrite !trace_bind, !trace_memcpy, trace_ret, app_nil_r;
    cbn; repeat (f_equal; try lia).
Qed.

Lemma vec_to_u64_within d n mu :
  0 <= n <= 8 ->
  Forall (fun o => d <= o < d + n)
    (input_offsets (trace (vec_to_u64 (input d) n) mu)).
Proof.
  intros Hn. rewrite (vec_to_u64_trace d n mu Hn).
  assert (Hc : n = 0 \/ n = 1 \/ n = 2 \/ n = 3 \/ n = 4 \/ n = 5 \/ n = 6
               \/ n = 7 \/ n = 8) by lia.
  repeat destruct Hc as [->|Hc]; try subst n; cbn;
    repeat (apply Forall_cons; split; [lia|]); constructor.
Qed.

Lemma vec_to_u64_once d n mu i :
  0 <= n <= 3 -> 0 <= i < n ->
  count_occ Z.eq_dec
    (input_offsets (trace (vec_to_u64 (input d) n) mu)) (d + i) = 1%nat.
Proof.
  intros Hn Hi. rewrite (vec_to_u64_trace d n mu) by lia.
  assert (Hn3 : n = 0 \/ n = 1 \/ n = 2 \/ n = 3) by lia.
  repeat destruct Hn3 as [->|Hn3]; try subst n; cbn [Z.leb Z.compare
    Pos.compare Pos.compare_cont Z.odd app Z.sub Z.add Z.opp Z.pos_sub
    Pos.pred_double];
    assert (Hi' : i = 0 \/ i = 1 \/ i = 2) by lia;
    repeat destruct Hi' as [->|Hi']; try subst i; try lia;
    repeat (first [ rewrite count_occ_cons_eq by lia
                  | rewrite count_occ_cons_neq by lia ]);
    reflexivity.
Qed.

(** On the three bytes "abc": [lo] is the first byte, [hi] the last two. *)
Example vec_to_u64_abc :
  value (vec_to_u64 (input 0) 3) (bytes_memory [x61; x62; x63])
  = Z.lor (Z.shiftl 0x6362 32) (0x61 + 0x6362).
Proof. reflexivity. Qed.

(** C9: for every [n] in [0, 8] the byte decoder of the short path loads
    input bytes only at offsets in [0, n) from [data]; for [n] in
    {0, 1, 2, 3} each of the [n] input bytes is loaded exactly once. *)
Theorem vec_to_u64_reads_within d n mu :
  0 <= n <= 8 ->
  Forall (fun o => d <= o < d + n)
    (input_offsets (trace (vec_to_u64 (input d) n) mu))
  /\ (n <= 3 ->
      forall i, 0 <= i < n ->
        count_occ Z.eq_dec
          (input_offsets (trace (vec_to_u64 (input d) n) mu)) (d + i) = 1%nat).
Proof.
  intros Hn. split; [now apply vec_to_u64_within|].
  intros Hs i Hi. apply vec_to_u64_once; lia.
Qed.

(** Three bytes at offset 0. *)
Lemma vec_to_u64_reads_within_witness :
  Forall (fun o => 0 <= o < 0 + 3)
    (input_offsets (trace (vec_to_u64 (input 0) 3) zero_memory))
  /\ (3 <= 3 ->
      forall i, 0 <= i < 3 ->
        count_occ Z.eq_dec
          (input_offsets (trace (vec_to_u64 (input 0) 3) zero_memory)) (0 + i)
        = 1%nat).
Proof. apply (vec_to_u64_reads_within 0 3 zero_memory). lia. Defined.

Lemma umash_short_value params seed data n mu :
  value (umash_short params seed data n) mu
  = short_mix (value (vec_to_u64 data n) mu) (u64 (seed + params n)).
Proof.
  unfold umash_short, short_mix, short_mix_post, short_mix_pre.
  rewrite value_bind. unfold value at 1, ret, u64. cbn [fst].
  set (h := value (vec_to_u64 data n) mu).
  set (a := (Z.lxor h (Z.shiftr h 30) * _) mod 2 ^ 64).
  set (k := (seed + params n) mod 2 ^ 64).
  replace (Z.lxor (Z.lxor a k) (Z.shiftr a 27))
    with (Z.lxor (Z.lxor a (Z.shiftr a 27)) k); [reflexivity|].
  rewrite !Z.lxor_assoc. f_equal. apply Z.lxor_comm.
Qed.

(** C2 (as amended): for every length, key, seed and input, the word
    injected between the two halves of the short mixer is the sum of the
    seed and the noise word at index [n], reduced modulo 2^64 (this is the
    statement [seed += params[n_bytes]] of the code), not their XOR. *)
Theorem umash_short_injects_sum params seed data n mu :
  value (umash_short params seed data n) mu
  = short_mix_post
      (Z.lxor (short_mix_pre (value (vec_to_u64 data n) mu))
              ((seed + params n) mod 2 ^ 64)).
Proof. apply umash_short_value. Qed.

(** C2 as stated fails: on the empty input, with seed 1 and noise word
    [noise[0] = 1], the code injects 1 + 1 = 2 and returns
    0x29A093767523053A; with the XOR of seed and noise word the injected
    value is 0 and the digest is 0. *)
Lemma umash_short_not_xor :
  ph_at example_key 0 0 = 1
  /\ value (umash_short (ph_at example_key 0) 1 (input 0) 0) zero_memory
     = 0x29A093767523053A
  /\ value (umash_short_spec (ph_at example_key 0) 1 (input 0) 0) zero_memory
     = 0
  /\ value (umash_short (ph_at example_key 0) 1 (input 0) 0) zero_memory
     <> value (umash_short_spec (ph_at example_key 0) 1 (input 0) 0)
          zero_memory.
Proof. vm_compute. repeat split. discriminate. Qed.

(** ** PH block compression *)

Lemma ph_pair_step_value params i block acc mu :
  exists acc',
    value (ph_pair_step params (i, block, acc)) mu
    = (i + 2, ptr_add block 16, acc').
Proof. eexists. unfold ph_pair_step. rewrite value_bind. reflexivity. Qed.

Lemma ph_pair_step_trace params i block acc mu :
  trace (ph_pair_step params (i, block, acc)) mu = span block 16.
Proof.
  unfold ph_pair_step. now autorewrite with read_trace.
Qed.

Lemma ph_pair_step_ext p p' i block acc mu :
  p i = p' i -> p (i + 1) = p' (i + 1) ->
  ph_pair_step p (i, block, acc) mu = ph_pair_step p' (i, block, acc) mu.
Proof. intros H0 H1. unfold ph_pair_step. now rewrite H0, H1. Qed.

(** The number of full pairs of [ph_last_block], for a block of 1 to 256
    bytes: twice the number of 16-byte chunks strictly before the last
    byte. *)
Lemma end_full_pairs_value n :
  1 <= n <= 256 ->
  u64 (n - u64 (1 + u64 (n - 1) mod 16)) / 8 = 2 * ((n - 1) / 16).
Proof. intros Hn. unfold u64. Z.div_mod_to_equations. lia. Qed.

(** The loop over the pairs reads the 16-byte chunks of the block below
    byte [8 * bound], in order. *)
Lemma ph_loop_reads params block bound mu fuel acc :
  bound mod 2 = 0 ->
  Forall (fun q => obj q = obj block
                   /\ off block <= off q < off block + 8 * bound)
    (trace (while fuel (fun '(i, _, _) => i <? bound)
              (ph_pair_step params) (0, block, acc)) mu).
Proof.
  intros Hb.
  apply (while_invariant
           (fun '(i, b, _) =>
              0 <= i /\ i mod 2 = 0 /\ b = ptr_add block (8 * i))).
  - intros [[i b] a] (Hi & Heven & ->) Hc.
    apply Z.ltb_lt in Hc.
    destruct (ph_pair_step_value params i (ptr_add block (8 * i)) a mu)
      as [a' ->].
    rewrite ph_pair_step_trace. split.
    + split; [lia|]. split.
      * revert Heven. Z.div_mod_to_equations. lia.
      * unfold ptr_add. cbn. f_equal. lia.
    + apply Forall_span. cbn. intros q Ho Hq. split; [exact Ho|].
      revert Hc Heven Hb Hq. Z.div_mod_to_equations. lia.
  - split; [lia|]. split; [reflexivity|].
    destruct block. unfold ptr_add. cbn. f_equal. lia.
Qed.

(** The loop over the pairs stops at its bound. *)
Lemma ph_loop_index p bound block acc mu :
  0 <= bound -> bound mod 2 = 0 ->
  fst (fst (value
              (while (Z.to_nat ((bound + 1) / 2))
                 (fun '(i, _, _) => i <? bound) (ph_pair_step p)
                 (0, block, acc)) mu))
  = bound.
Proof.
  intros Hb Heven.
  pose proof (while_invariant
                (fun '(i, _, _) => 0 <= i <= bound /\ i mod 2 = 0)
                (fun _ => True)
                (fun '(i, _, _) => i <? bound) (ph_pair_step p) mu) as Hinv.
  pose proof (while_exit
                (fun '(i, _, _) => 0 <= i <= bound /\ i mod 2 = 0)
                (fun '(i, _, _) => Z.to_nat ((bound - i + 1) / 2))
                (fun '(i, _, _) => i <? bound) (ph_pair_step p) mu) as Hexit.
  specialize (Hexit
    ltac:(intros [[i b] a] [Hi Hev] Hc; apply Z.ltb_lt in Hc;
          destruct (ph_pair_step_value p i b a mu) as [a' ->];
          split; [split|];
          revert Hev Heven Hc; Z.div_mod_to_equations; lia)
    (Z.to_nat ((bound + 1) / 2)) (0, block, acc)
    ltac:(split; [lia | reflexivity])
    ltac:(cbn; rewrite Z.sub_0_r; lia)).
  specialize (Hinv
    ltac:(intros [[i b] a] [Hi Hev] Hc; apply Z.ltb_lt in Hc;
          destruct (ph_pair_step_value p i b a mu) as [a' ->];
          split; [split|apply Forall_true; auto];
          revert Hev Heven Hc; Z.div_mod_to_equations; lia)
    (Z.to_nat ((bound + 1) / 2)) (0, block, acc)
    ltac:(split; [lia | reflexivity])).
  destruct Hinv as [Hinv _].
  destruct (value _ mu) as [[i b] a]. cbn in *.
  apply Z.ltb_ge in Hexit. lia.
Qed.

(** The loop over the pairs reads the noise words below its bound. *)
Lemma ph_loop_ext p p' bound fuel block acc mu :
  bound mod 2 = 0 ->
  (forall i, 0 <= i < bound -> p i = p' i) ->
  while fuel (fun '(i, _, _) => i <? bound) (ph_pair_step p)
    (0, block, acc) mu
  = while fuel (fun '(i, _, _) => i <? bound) (ph_pair_step p')
      (0, block, acc) mu.
Proof.
  intros Hb Hp.
  apply (while_ext (fun '(i, _, _) => 0 <= i /\ i mod 2 = 0)).
  - intros [[i b] a] [Hi Heven] Hc. apply Z.ltb_lt in Hc.
    assert (i + 1 < bound)
      by (revert Hb Heven Hc; Z.div_mod_to_equations; lia).
    split.
    + apply ph_pair_step_ext; apply Hp; lia.
    + destruct (ph_pair_step_value p i b a mu) as [a' ->].
      split; [lia|]. revert Heven. Z.div_mod_to_equations. lia.
  - split; [lia | reflexivity].
Qed.

(** The iteration bounds given to [while] are never what stops the PH
    loops: both run until the index reaches the bound of the [for]. *)
Lemma ph_one_block_loop_exit p block acc mu :
  fst (fst (value
              (while (Z.to_nat ((UMASH_PH_PARAM_COUNT + 1) / 2))
                 (fun '(i, _, _) => i <? UMASH_PH_PARAM_COUNT)
                 (ph_pair_step p) (0, block, acc)) mu))
  = UMASH_PH_PARAM_COUNT.
Proof. apply ph_loop_index; [unfold UMASH_PH_PARAM_COUNT; lia | reflexivity]. Qed.

Lemma ph_last_block_loop_exit p block acc n mu :
  1 <= n <= 256 ->
  fst (fst (value
              (while (Z.to_nat
                        ((u64 (n - u64 (1 + u64 (n - 1) mod 16)) / 8 + 1) / 2))
                 (fun '(i, _, _) =>
                    i <? u64 (n - u64 (1 + u64 (n - 1) mod 16)) / 8)
                 (ph_pair_step p) (0, block, acc)) mu))
  = u64 (n - u64 (1 + u64 (n - 1) mod 16)) / 8.
Proof.
  intros Hn. rewrite (end_full_pairs_value n Hn).
  apply ph_loop_index; Z.div_mod_to_equations; lia.
Qed.

Lemma ph_one_block_trace params seed block mu :
  Forall (fun q => obj q = obj block
                   /\ off block <= off q < off block + BLOCK_SIZE)
    (trace (ph_one_block params seed block) mu).
Proof.
  unfold ph_one_block. rewrite trace_bind. apply Forall_app. split.
  - apply (ph_loop_reads params block UMASH_PH_PARAM_COUNT). reflexivity.
  - destruct (value _ mu) as [[i b] acc]. constructor.
Qed.

Lemma ph_one_block_ext p p' seed block mu :
  (forall i, 0 <= i < UMASH_PH_PARAM_COUNT -> p i = p' i) ->
  ph_one_block p seed block mu = ph_one_block p' seed block mu.
Proof.
  intros Hp. unfold ph_one_block, bind.
  rewrite (ph_loop_ext p p' UMASH_PH_PARAM_COUNT _ block _ mu eq_refl Hp).
  reflexivity.
Qed.

(** The addresses read by [ph_last_block] in a block of 1 to 256 bytes. *)
Lemma ph_last_block_trace params seed block n mu :
  1 <= n <= 256 ->
  Forall (fun q => obj q = obj block
                   /\ off block + Z.min 0 (n - 16) <= off q < off block + n)
    (trace (ph_last_block params seed block n) mu).
Proof.
  intros Hn. unfold ph_last_block. rewrite (end_full_pairs_value n Hn).
  rewrite trace_bind. apply Forall_app. split.
  - eapply Forall_impl;
      [apply (ph_loop_reads params block (2 * ((n - 1) / 16)));
       Z.div_mod_to_equations; lia|].
    cbn. intros q [Ho Hq]. split; [exact Ho|].
    revert Hq. Z.div_mod_to_equations. lia.
  - destruct (value _ mu) as [[i b] acc].
    rewrite !trace_bind, !trace_memcpy, trace_ret, app_nil_r.
    apply Forall_app. split; apply Forall_span; cbn;
      intros q Ho Hq; (split; [exact Ho | lia]).
Qed.

Lemma ph_last_block_ext p p' seed block n mu :
  1 <= n <= 256 ->
  (forall i, 0 <= i < 2 * ((n - 1) / 16) + 2 -> p i = p' i) ->
  ph_last_block p seed block n mu = ph_last_block p' seed block n mu.
Proof.
  intros Hn Hp. unfold ph_last_block. rewrite (end_full_pairs_value n Hn).
  set (bound := 2 * ((n - 1) / 16)) in *.
  assert (Hb : 0 <= bound)
    by (unfold bound; Z.div_mod_to_equations; lia).
  assert (Heven : bound mod 2 = 0)
    by (unfold bound; Z.div_mod_to_equations; lia).
  pose proof (ph_loop_index p' bound block (_mm_cvtsi64_si128 seed) mu
                Hb Heven) as Hidx.
  unfold bind.
  rewrite (ph_loop_ext p p' bound _ block _ mu Heven)
    by (intros i Hi; apply Hp; lia).
  unfold value in Hidx.
  destruct (while _ _ (ph_pair_step p') _ mu) as [[[i b] a] tr].
  cbn in Hidx. subst i. cbn [fst snd].
  rewrite (Hp bound), (Hp (bound + 1)) by lia.
  reflexivity.
Qed.

(** C3 (as amended): for a block of [n] bytes, [n] in [1, 256], the
    last-block PH variant never loads a byte at or past offset [n], and
    never below offset [min 0 (n - 16)]: the trailing 16-byte region starts
    at offset [n - 16].  For [n] in [16, 256] every load lies within
    [0, n). *)
Theorem ph_last_block_reads params seed d n mu :
  1 <= n <= 256 ->
  Forall (fun q => obj q = Input /\ d + Z.min 0 (n - 16) <= off q < d + n)
    (trace (ph_last_block params seed (input d) n) mu)
  /\ (16 <= n ->
      Forall (fun q => obj q = Input /\ d <= off q < d + n)
        (trace (ph_last_block params seed (input d) n) mu)).
Proof.
  intros Hn.
  pose proof (ph_last_block_trace params seed (input d) n mu Hn) as Hmain.
  split; [exact Hmain|].
  intros H16. eapply Forall_impl; [exact Hmain|].
  cbn. intros q [Ho Hq]. split; [exact Ho | lia].
Qed.

(** A last block of 40 bytes: two full pairs and the overlapping tail. *)
Lemma ph_last_block_reads_witness :
  Forall (fun q => obj q = Input /\ 0 + Z.min 0 (40 - 16) <= off q < 0 + 40)
    (trace (ph_last_block (ph_at example_key 0) 0 (input 0) 40) zero_memory)
  /\ (16 <= 40 ->
      Forall (fun q => obj q = Input /\ 0 <= off q < 0 + 40)
        (trace (ph_last_block (ph_at example_key 0) 0 (input 0) 40)
           zero_memory)).
Proof.
  apply (ph_last_block_reads (ph_at example_key 0) 0 0 40 zero_memory). lia.
Defined.

(** C3 as stated fails: for a block of one byte the trailing region is
    read from offset 1 - 16 = -15, before the start of the block. *)
Lemma ph_last_block_reads_before_block :
  input_offsets
    (trace (ph_last_block (ph_at example_key 0) 0 (input 0) 1) zero_memory)
  = [-15; -14; -13; -12; -11; -10; -9; -8; -7; -6; -5; -4; -3; -2; -1; 0]
  /\ ~ Forall (fun o => 0 <= o < 1)
         (input_offsets
            (trace (ph_last_block (ph_at example_key 0) 0 (input 0) 1)
               zero_memory)).
Proof.
  assert (Htr : input_offsets
    (trace (ph_last_block (ph_at example_key 0) 0 (input 0) 1) zero_memory)
    = [-15; -14; -13; -12; -11; -10; -9; -8; -7; -6; -5; -4; -3; -2; -1; 0])
    by (vm_compute; reflexivity).
  split; [exact Htr|]. rewrite Htr. intros HF.
  apply Forall_cons in HF. lia.
Qed.

(** ** The medium and long paths *)

Lemma umash_medium_reads_within m p seed data n mu :
  8 <= n ->
  Forall (fun q => obj q = obj data /\ off data <= off q < off data + n)
    (trace (umash_medium m p seed data n) mu).
Proof.
  intros Hn. unfold umash_medium.
  autorewrite with read_trace.
  apply Forall_app. split; apply Forall_span; cbn;
    intros q Ho Hq; (split; [exact Ho | lia]).
Qed.

Lemma umash_long_step_value m p seed acc data n mu :
  exists acc',
    value (umash_long_step m p seed (acc, data, n)) mu
    = (acc', ptr_add data BLOCK_SIZE, u64 (n - BLOCK_SIZE)).
Proof. eexists. unfold umash_long_step. rewrite value_bind. reflexivity. Qed.

Lemma umash_long_step_trace m p seed acc data n mu :
  trace (umash_long_step m p seed (acc, data, n)) mu
  = trace (ph_one_block p seed data) mu.
Proof.
  unfold umash_long_step. now autorewrite with read_trace.
Qed.

(** The block loop of [umash_long] stops with 1 to 256 bytes left, having
    consumed whole blocks, all of them inside the input. *)
Lemma umash_long_loop_exit m p seed data n mu :
  1 <= n < 2 ^ 64 ->
  (exists acc' k,
     value (while (Z.to_nat (n / BLOCK_SIZE))
              (fun '(_, _, n_bytes) => BLOCK_SIZE <? n_bytes)
              (umash_long_step m p seed) (0, data, n)) mu
     = (acc', ptr_add data (BLOCK_SIZE * k), n - BLOCK_SIZE * k)
     /\ 0 <= k /\ 1 <= n - BLOCK_SIZE * k <= BLOCK_SIZE)
  /\ Forall (fun q => obj q = obj data /\ off data <= off q < off data + n)
       (trace (while (Z.to_nat (n / BLOCK_SIZE))
                 (fun '(_, _, n_bytes) => BLOCK_SIZE <? n_bytes)
                 (umash_long_step m p seed) (0, data, n)) mu).
Proof.
  intros Hn. change BLOCK_SIZE with 256.
  set (I := fun s : Z * ptr * Z =>
              let '(_, d, n') := s in
              exists k, 0 <= k /\ 1 <= n' /\ n' = n - 256 * k
                        /\ d = ptr_add data (256 * k)).
  set (P := fun q => obj q = obj data /\ off data <= off q < off data + n).
  assert (Hstep : forall s, I s ->
            (let '(_, _, n_bytes) := s in 256 <? n_bytes) = true ->
            I (value (umash_long_step m p seed s) mu)
            /\ (Z.to_nat (snd (value (umash_long_step m p seed s) mu) / 256)
                < Z.to_nat (snd s / 256))%nat).
  { intros [[a d] n'] (k & Hk & Hn' & -> & ->) Hc. apply Z.ltb_lt in Hc.
    destruct (umash_long_step_value m p seed a (ptr_add data (256 * k))
                (n - 256 * k) mu) as [a' ->].
    change BLOCK_SIZE with 256.
    assert (Hu : u64 (n - 256 * k - 256) = n - 256 * (k + 1))
      by (unfold u64; rewrite Z.mod_small; lia).
    rewrite Hu. split.
    - exists (k + 1). repeat split; try lia.
      unfold ptr_add. cbn. f_equal. lia.
    - cbn [snd]. apply Z2Nat.inj_lt; Z.div_mod_to_equations; lia. }
  assert (Hreads : forall s, I s ->
            (let '(_, _, n_bytes) := s in 256 <? n_bytes) = true ->
            Forall P (trace (umash_long_step m p seed s) mu)).
  { intros [[a d] n'] (k & Hk & Hn' & -> & ->) Hc. apply Z.ltb_lt in Hc.
    rewrite umash_long_step_trace.
    eapply Forall_impl; [apply ph_one_block_trace|].
    change BLOCK_SIZE with 256. unfold P. cbn. intros q [Ho Hq].
    split; [exact Ho | lia]. }
  assert (H0 : I (0, data, n)).
  { exists 0. repeat split; try lia.
    destruct data. unfold ptr_add. cbn. f_equal. lia. }
  pose proof (while_invariant I P
                (fun '(_, _, n_bytes) => 256 <? n_bytes)
                (umash_long_step m p seed) mu
                ltac:(intros s Hs Hc; split;
                      [apply (Hstep s Hs Hc) | apply (Hreads s Hs Hc)])
                (Z.to_nat (n / 256)) _ H0) as [Hinv Htr].
  pose proof (while_exit I (fun s => Z.to_nat (snd s / 256))
                (fun '(_, _, n_bytes) => 256 <? n_bytes)
                (umash_long_step m p seed) mu Hstep
                (Z.to_nat (n / 256)) _ H0 ltac:(cbn; lia)) as Hexit.
  split; [|exact Htr].
  destruct (value _ mu) as [[a d] n'].
  destruct Hinv as (k & Hk & Hn' & -> & ->). apply Z.ltb_ge in Hexit.
  exists a, k. repeat split; try lia.
Qed.

(** Memory safety of the long path: on an input of at least 16 bytes
    every byte it loads, the overlapping tail of the last block included,
    is a byte of the input. *)
Lemma umash_long_reads_within m p seed data n mu :
  16 <= n < 2 ^ 64 ->
  Forall (fun q => obj q = obj data /\ off data <= off q < off data + n)
    (trace (umash_long m p seed data n) mu).
Proof.
  intros Hn. unfold umash_long. rewrite trace_bind.
  destruct (umash_long_loop_exit m p seed data n mu ltac:(lia))
    as [(a & k & Hv & Hk & Hr) Htr].
  apply Forall_app. split; [exact Htr|].
  rewrite Hv. rewrite trace_bind, trace_ret, app_nil_r.
  change BLOCK_SIZE with 256 in *.
  eapply Forall_impl; [apply ph_last_block_trace; lia|].
  cbn. intros q [Ho Hq]. split; [exact Ho | lia].
Qed.

Lemma umash_long_ext m p p' seed data n mu :
  1 <= n < 2 ^ 64 ->
  (forall i, (if n <=? 256 then 0 <= i < 2 * ((n - 1) / 16) + 2
              else 0 <= i < UMASH_PH_PARAM_COUNT) -> p i = p' i) ->
  umash_long m p seed data n mu = umash_long m p' seed data n mu.
Proof.
  intros Hn Hp. unfold umash_long.
  destruct (Z.leb_spec n 256) as [Hle|Hgt].
  - rewrite !while_false
      by (change BLOCK_SIZE with 256; apply Z.ltb_ge; lia).
    unfold bind, ret. cbn [fst snd].
    rewrite (ph_last_block_ext p p' _ data n mu) by (auto; lia).
    reflexivity.
  - destruct (umash_long_loop_exit m p' seed data n mu Hn)
      as [(a & k & Hv & Hk & Hr) _].
    unfold bind.
    rewrite (while_ext (fun _ => True) _ (umash_long_step m p seed)
               (umash_long_step m p' seed) mu); [| |exact I].
    + unfold value in Hv.
      destruct (while _ _ (umash_long_step m p' seed) _ mu)
        as [[[a0 d0] n0] tr].
      cbn in Hv. injection Hv as -> -> ->. cbn [fst snd].
      change BLOCK_SIZE with 256 in *.
      rewrite (ph_last_block_ext p p' _ _ (n - 256 * k) mu); [reflexivity|lia|].
      intros i Hi. apply Hp. unfold UMASH_PH_PARAM_COUNT.
      revert Hi. Z.div_mod_to_equations. lia.
    + intros [[a0 d0] n0] _ _. split; [|exact I].
      unfold umash_long_step, bind.
      rewrite (ph_one_block_ext p p' seed d0 mu); [reflexivity|].
      intros i Hi. apply Hp. exact Hi.
Qed.

(** ** Parameter preparation *)

Lemma sample_multiplier_range fuel buf : forall idx f f' idx',
  sample_multiplier fuel buf idx f = Some (Some (f', idx')) ->
  0 < f' < 2 ^ 61 - 1.
Proof.
  induction fuel as [|fuel IH]; intros idx f f' idx' H; [discriminate|].
  cbn [sample_multiplier] in H.
  destruct (negb (Z.land f (Z.shiftl 1 61 - 1) =? 0)
            && (Z.land f (Z.shiftl 1 61 - 1) <? modulo)) eqn:Hok.
  - injection H as <- <-. apply andb_prop in Hok as [Hnz Hlt].
    apply negb_true_iff, Z.eqb_neq in Hnz. apply Z.ltb_lt in Hlt.
    change modulo with (2 ^ 61 - 1) in Hlt.
    assert (0 <= Z.land f (Z.shiftl 1 61 - 1))
      by (apply Z.land_nonneg; right; vm_compute; discriminate).
    lia.
  - destruct (GET_RANDOM buf idx) as [[g idx1]|]; [|discriminate].
    exact (IH _ _ _ _ H).
Qed.

Lemma sample_multiplier_total fuel buf : forall idx f,
  (length buf - idx < fuel)%nat -> sample_multiplier fuel buf idx f <> None.
Proof.
  induction fuel as [|fuel IH]; intros idx f Hf; [lia|].
  cbn [sample_multiplier].
  destruct (negb _ && _); [discriminate|].
  unfold GET_RANDOM. destruct (Nat.leb_spec (length buf) idx); [discriminate|].
  apply IH. lia.
Qed.

(** Reducing modulo 2^64 - 8 first does not change the residue modulo
    2^61 - 1, since 2^64 - 8 = 8 * (2^61 - 1). *)
Lemma lazy_reduction a b :
  a mod (2 ^ 64 - 8) = b mod (2 ^ 64 - 8) ->
  a mod (2 ^ 61 - 1) = b mod (2 ^ 61 - 1).
Proof. Z.div_mod_to_equations. lia. Qed.

Lemma square_mod_modulo f :
  0 < f < 2 ^ 61 - 1 ->
  mul_mod_fast f f mod modulo = (f * f) mod (2 ^ 61 - 1).
Proof.
  intros Hf. change modulo with (2 ^ 61 - 1). apply lazy_reduction.
  apply mul_mod_fast_small_multiplier; unfold is_u64; lia.
Qed.

(** Invariant rule for the [for] loops of [umash_params_prepare], when the
    loop runs to its end. *)
Lemma for_each_invariant (Q : nat -> prepare_state -> Prop) body len :
  forall start st st',
  (forall i s s', (start <= i < start + len)%nat -> Q i s ->
     body i s = Some (true, s') -> Q (S i) s') ->
  Q start st ->
  for_each (seq start len) body st = Some (true, st') ->
  Q (start + len)%nat st'.
Proof.
  induction len as [|len IH]; intros start st st' Hbody Hq H.
  - cbn in H. injection H as <-. now rewrite Nat.add_0_r.
  - cbn [seq for_each] in H.
    destruct (body start st) as [[[|] s1]|] eqn:Hb; try discriminate.
    replace (start + S len)%nat with (S start + len)%nat by lia.
    apply (IH (S start) s1 st').
    + intros i s s' Hi. apply Hbody. lia.
    + apply (Hbody start st s1); [lia | exact Hq | exact Hb].
    + exact H.
Qed.

Lemma for_each_total body indices :
  (forall i s, body i s <> None) ->
  forall st, for_each indices body st <> None.
Proof.
  intros Hbody. induction indices as [|i rest IH]; intros st; [discriminate|].
  cbn [for_each]. specialize (Hbody i st).
  destruct (body i st) as [[[|] s1]|]; [apply IH|discriminate|congruence].
Qed.

Lemma prepare_poly_step buf i st st' :
  prepare_poly buf i st = Some (true, st') ->
  ph (st_params st') = ph (st_params st)
  /\ exists pair, multiplier_ok pair
       /\ poly (st_params st') = <[i := pair]> (poly (st_params st)).
Proof.
  unfold prepare_poly. intros H.
  destruct (sample_multiplier _ buf (buf_idx st) _) as [[[f idx]|]|] eqn:Hs;
    try discriminate.
  injection H as <-. cbn. split; [reflexivity|].
  apply sample_multiplier_range in Hs.
  eexists. split; [|reflexivity].
  split; cbn; [exact Hs | now apply square_mod_modulo].
Qed.

Lemma prepare_poly_total buf i st : prepare_poly buf i st <> None.
Proof.
  unfold prepare_poly.
  pose proof (sample_multiplier_total (S (length buf)) buf (buf_idx st)
                (snd (nth i (poly (st_params st)) (0, 0)))) as Ht.
  destruct (sample_multiplier _ buf (buf_idx st) _) as [[[f idx]|]|];
    [discriminate | discriminate | exfalso; apply Ht; [lia | reflexivity]].
Qed.

Lemma replace_repeated_step fuel buf i : forall st st',
  replace_repeated fuel buf i st = Some (true, st') ->
  poly (st_params st') = poly (st_params st)
  /\ length (ph (st_params st')) = length (ph (st_params st))
  /\ take i (ph (st_params st')) = take i (ph (st_params st))
  /\ value_is_repeated (ph (st_params st')) i
       (nth i (ph (st_params st')) 0) = false.
Proof.
  induction fuel as [|fuel IH]; intros st st' H; [discriminate|].
  cbn [replace_repeated] in H.
  destruct (value_is_repeated _ i _) eqn:Hrep.
  - destruct (GET_RANDOM buf (buf_idx st)) as [[v idx]|]; [|discriminate].
    apply IH in H. cbn in H. destruct H as (Hp & Hl & Ht & Hv).
    rewrite length_insert in Hl. rewrite take_insert_ge in Ht by lia.
    auto.
  - injection H as <-. auto.
Qed.

Lemma replace_repeated_total fuel buf i : forall st,
  (length buf - buf_idx st < fuel)%nat ->
  replace_repeated fuel buf i st <> None.
Proof.
  induction fuel as [|fuel IH]; intros st Hf; [lia|].
  cbn [replace_repeated].
  destruct (value_is_repeated _ i _); [|discriminate].
  unfold GET_RANDOM.
  destruct (Nat.leb_spec (length buf) (buf_idx st)); [discriminate|].
  apply IH. cbn. lia.
Qed.

Lemma value_is_repeated_false values n needle :
  value_is_repeated values n needle = false -> needle ∉ take n values.
Proof.
  unfold value_is_repeated. intros H Hin.
  assert (Ht : existsb (fun v => v =? needle) (firstn n values) = true).
  { apply existsb_exists. exists needle.
    split; [now apply list_elem_of_In | apply Z.eqb_refl]. }
  congruence.
Qed.

(** The loop over [params->poly] leaves the noise table alone and makes
    every polynomial pair valid. *)
Lemma prepare_poly_loop buf st st' :
  length (poly (st_params st)) = POLY_SIZE ->
  for_each (seq 0 POLY_SIZE) (prepare_poly buf) st = Some (true, st') ->
  ph (st_params st') = ph (st_params st)
  /\ length (poly (st_params st')) = POLY_SIZE
  /\ Forall multiplier_ok (poly (st_params st')).
Proof.
  intros Hlen H.
  apply (for_each_invariant
           (fun i s =>
              ph (st_params s) = ph (st_params st)
              /\ length (poly (st_params s)) = POLY_SIZE
              /\ forall j p, (j < i)%nat ->
                   poly (st_params s) !! j = Some p -> multiplier_ok p))
    in H.
  - destruct H as (Hph & Hl & Hall).
    split; [exact Hph|]. split; [exact Hl|].
    apply Forall_lookup. intros j p Hj. apply (Hall j p); [|exact Hj].
    apply lookup_lt_Some in Hj. rewrite Hl in Hj. exact Hj.
  - intros i s s' Hi (Hph & Hl & Hall) Hb.
    apply prepare_poly_step in Hb as (Hph' & pair & Hok & Hpoly).
    rewrite Hph', Hpoly, length_insert.
    split; [exact Hph|]. split; [exact Hl|].
    intros j p Hj Hlk. destruct (decide (i = j)) as [<-|Hne].
    + rewrite list_lookup_insert_eq in Hlk by (rewrite Hl; cbn in *; lia).
      now injection Hlk as <-.
    + rewrite list_lookup_insert_ne in Hlk by exact Hne.
      apply (Hall j p); [lia | exact Hlk].
  - split; [reflexivity|]. split; [exact Hlen|]. intros j p Hj. lia.
Qed.

(** The loop over [params->ph] leaves the polynomial pairs alone and makes
    the noise words pairwise distinct. *)
Lemma prepare_noise_loop buf st st' :
  length (ph (st_params st)) = PH_SIZE ->
  for_each (seq 0 PH_SIZE) (prepare_noise buf) st = Some (true, st') ->
  poly (st_params st') = poly (st_params st)
  /\ length (ph (st_params st')) = PH_SIZE
  /\ NoDup (ph (st_params st')).
Proof.
  intros Hlen H.
  apply (for_each_invariant
           (fun i s =>
              poly (st_params s) = poly (st_params st)
              /\ length (ph (st_params s)) = PH_SIZE
              /\ NoDup (take i (ph (st_params s)))))
    in H.
  - destruct H as (Hp & Hl & Hnd). repeat split; try assumption.
    rewrite take_ge in Hnd by (rewrite Hl; cbn; lia). exact Hnd.
  - intros i s s' Hi (Hp & Hl & Hnd) Hb.
    apply replace_repeated_step in Hb as (Hp' & Hl' & Ht & Hv).
    rewrite Hp', Hl'. repeat split; try assumption.
    destruct (lookup_lt_is_Some_2 (ph (st_params s')) i) as [x Hx];
      [rewrite Hl', Hl; cbn in *; lia|].
    rewrite (take_S_r _ _ _ Hx). rewrite (nth_lookup_Some _ _ 0 _ Hx) in Hv.
    apply NoDup_app. split; [rewrite Ht; exact Hnd|]. split.
    + intros y Hy Hin. apply list_elem_of_singleton in Hin. subst y.
      now apply value_is_repeated_false in Hv.
    + apply NoDup_singleton.
  - repeat split; [exact Hlen | constructor].
Qed.

(** C4: whenever [umash_params_prepare] returns true, the key it leaves
    satisfies the prepared-key invariants: every base multiplier
    [poly[i][1]] is strictly between 0 and 2^61 - 1, every pre-squared slot
    [poly[i][0]] is the square of the base modulo 2^61 - 1, and the noise
    words are pairwise distinct. *)
Theorem umash_params_prepare_ok k k' :
  well_formed k ->
  umash_params_prepare k = Some (true, k') ->
  well_formed k' /\ prepared k'.
Proof.
  intros [Hpl Hnl] H. unfold umash_params_prepare in H.
  set (buf := [_; _]) in H.
  destruct (for_each (seq 0 POLY_SIZE) (prepare_poly buf) _)
    as [[[|] s1]|] eqn:H1; try discriminate.
  - destruct (for_each (seq 0 PH_SIZE) (prepare_noise buf) s1)
      as [[b s2]|] eqn:H2; [|discriminate].
    injection H as -> <-.
    apply prepare_poly_loop in H1 as (Hph1 & Hl1 & Hok1); [|exact Hpl].
    cbn in Hph1.
    apply prepare_noise_loop in H2 as (Hp2 & Hl2 & Hnd2);
      [|rewrite Hph1; exact Hnl].
    unfold well_formed, prepared. rewrite Hp2. auto.
Qed.

(** The iteration bounds of the model are never reached: the function
    always returns. *)
Lemma prepare_total k : umash_params_prepare k <> None.
Proof.
  unfold umash_params_prepare. set (buf := [_; _]).
  pose proof (for_each_total (prepare_poly buf) (seq 0 POLY_SIZE)
                (prepare_poly_total buf)) as H1.
  specialize (H1 {| st_params := k; buf_idx := 0 |}).
  destruct (for_each (seq 0 POLY_SIZE) (prepare_poly buf) _)
    as [[[|] s1]|]; [|discriminate|congruence].
  assert (H2 : forall i s, prepare_noise buf i s <> None).
  { intros i s. unfold prepare_noise. apply replace_repeated_total. lia. }
  pose proof (for_each_total (prepare_noise buf) (seq 0 PH_SIZE) H2 s1) as H3.
  destruct (for_each (seq 0 PH_SIZE) (prepare_noise buf) s1) as [[b s2]|];
    [discriminate|congruence].
Qed.

Lemma example_key_prepared : well_formed example_key /\ prepared example_key.
Proof.
  split; [split; reflexivity|]. split.
  - repeat constructor.
  - apply NoDup_ListNoDup. cbn.
    repeat (constructor; [cbn; intuition discriminate|]). constructor.
Qed.

(** [raw_key] is prepared into a valid key: its first multiplier and its
    noise word 5 are replaced by the two pool words. *)
Lemma umash_params_prepare_ok_witness :
  well_formed
    {| poly := [(15241578750190521, 123456789); (9, 3)];
       ph := <[5%nat := 987654321]> (map Z.of_nat (seq 1 PH_SIZE)) |}
  /\ prepared
       {| poly := [(15241578750190521, 123456789); (9, 3)];
          ph := <[5%nat := 987654321]> (map Z.of_nat (seq 1 PH_SIZE)) |}.
Proof.
  apply (umash_params_prepare_ok raw_key); [split; reflexivity|].
  vm_compute. reflexivity.
Defined.

(** Preparation fails when the pool is exhausted: both pool words of
    [exhausted_key], 0 and 2^61 - 1, are rejected as multipliers. *)
Lemma prepare_pool_exhausted :
  umash_params_prepare exhausted_key = Some (false, exhausted_key).
Proof. vm_compute. reflexivity. Qed.

(** ** Public dispatch *)

Lemma fprint_loop_value one shift r0 mu :
  hash (value (fprint_loop one shift {| hash := r0 |}) mu)
  = <[1%nat := value (one 1 shift) mu]> (<[0%nat := value (one 0 0) mu]> r0).
Proof. reflexivity. Qed.

Lemma fprint_loop_trace one shift r0 mu :
  trace (fprint_loop one shift r0) mu
  = trace (one 0 0) mu ++ trace (one 1 shift) mu.
Proof.
  cbv [fprint_loop trace bind while ret fst snd Z.ltb Z.compare Z.add
       Pos.compare Pos.compare_cont].
  now rewrite !app_nil_r.
Qed.

(** The loops of [umash_fprint] stop after both halves. *)
Lemma fprint_loop_exit (one : Z -> Z -> Read Z) shift r0 mu :
  fst (fst (value
              (while 2 (fun '(i, _, _) => i <? 2)
                 (fun '(i, s, r) =>
                    let* h := one i s in
                    ret (i + 1, shift,
                         {| hash := <[Z.to_nat i := h]> (hash r) |}))
                 (0, 0, r0)) mu))
  = 2.
Proof. reflexivity. Qed.

Lemma umash_fprint_halves params seed data n mu :
  hash (value (umash_fprint params seed data n) mu)
  = [value (umash_full params seed 0 data n) mu;
     value (umash_full params seed 1 data n) mu].
Proof.
  unfold umash_fprint, umash_full.
  change (0 =? 0) with true. change (1 =? 0) with false. cbv iota.
  destruct (n <=? 16); [destruct (n <=? 8)|];
    rewrite fprint_loop_value; reflexivity.
Qed.

Lemma umash_fprint_trace k seed data n mu :
  trace (umash_fprint k seed data n) mu
  = trace (umash_full k seed 0 data n) mu
    ++ trace (umash_full k seed 1 data n) mu.
Proof.
  unfold umash_fprint, umash_full.
  change (0 =? 0) with true. change (1 =? 0) with false. cbv iota.
  destruct (n <=? 16); [destruct (n <=? 8)|];
    rewrite fprint_loop_trace; reflexivity.
Qed.

(** C5: for every key, seed, input and length, the fingerprint is the
    ordered pair of the two single hashes, [which = 0] first; it loads the
    bytes that the first hash loads, then those that the second loads. *)
Theorem umash_fprint_is_pair params seed data n mu :
  hash (value (umash_fprint params seed data n) mu)
  = [value (umash_full params seed 0 data n) mu;
     value (umash_full params seed 1 data n) mu]
  /\ trace (umash_fprint params seed data n) mu
     = trace (umash_full params seed 0 data n) mu
       ++ trace (umash_full params seed 1 data n) mu.
Proof. split; [apply umash_fprint_halves | apply umash_fprint_trace]. Qed.

(** C10: for every length [n] in [0, 8], two keys with the same noise table
    give the same result whatever their polynomial pairs, and the digest is
    the short mixer applied to the decoded bytes and to the seed plus one
    noise word, the one at index [n] when [which = 0] and at index
    [UMASH_PH_TOEPLITZ_SHIFT + n] otherwise. *)
Theorem umash_full_short_ignores_poly k1 k2 seed which data n mu :
  0 <= n <= 8 -> ph k1 = ph k2 ->
  umash_full k1 seed which data n mu = umash_full k2 seed which data n mu
  /\ value (umash_full k1 seed which data n) mu
     = short_mix (value (vec_to_u64 data n) mu)
         (u64 (seed +
               nth (Z.to_nat
                      ((if which =? 0 then 0 else UMASH_PH_TOEPLITZ_SHIFT) + n))
                   (ph k1) 0)).
Proof.
  intros Hn Hph. unfold umash_full.
  destruct (Z.leb_spec n 16); [|lia].
  destruct (Z.leb_spec n 8); [|lia].
  split.
  - unfold ph_at. rewrite Hph. reflexivity.
  - rewrite umash_short_value. reflexivity.
Qed.

(** Two keys that differ in their polynomial pairs only, on three bytes
    with [which = 1]. *)
Lemma umash_full_short_ignores_poly_witness :
  umash_full example_key 7 1 (input 0) 3 zero_memory
  = umash_full {| poly := [(4, 2); (9, 3)]; ph := ph example_key |} 7 1
      (input 0) 3 zero_memory
  /\ value (umash_full example_key 7 1 (input 0) 3) zero_memory
     = short_mix (value (vec_to_u64 (input 0) 3) zero_memory)
         (u64 (7 +
               nth (Z.to_nat
                      ((if 1 =? 0 then 0 else UMASH_PH_TOEPLITZ_SHIFT) + 3))
                   (ph example_key) 0)).
Proof.
  apply (umash_full_short_ignores_poly example_key
           {| poly := [(4, 2); (9, 3)]; ph := ph example_key |} 7 1 (input 0) 3
           zero_memory); [lia | reflexivity].
Defined.

(** Every input byte that a single hash loads lies within the [n] bytes of
    the input. *)
Lemma umash_full_reads_within k seed which d n mu :
  0 <= n < 2 ^ 64 ->
  Forall (fun o => d <= o < d + n)
    (input_offsets (trace (umash_full k seed which (input d) n) mu)).
Proof.
  intros Hn. unfold umash_full.
  destruct (Z.leb_spec n 16) as [H16|H16].
  - destruct (Z.leb_spec n 8) as [H8|H8].
    + unfold umash_short. rewrite trace_bind, trace_ret, app_nil_r.
      apply (vec_to_u64_within d n mu). lia.
    + apply Forall_input_offsets.
      eapply Forall_impl; [apply umash_medium_reads_within; lia|].
      cbn. intros q [_ Hq] _. exact Hq.
  - apply Forall_input_offsets.
    eapply Forall_impl; [apply umash_long_reads_within; lia|].
    cbn. intros q [_ Hq] _. exact Hq.
Qed.

(** Every input byte that a fingerprint loads lies within the [n] bytes of
    the input. *)
Lemma umash_fprint_reads_within k seed d n mu :
  0 <= n < 2 ^ 64 ->
  Forall (fun o => d <= o < d + n)
    (input_offsets (trace (umash_fprint k seed (input d) n) mu)).
Proof.
  intros Hn. rewrite umash_fprint_trace. unfold input_offsets.
  rewrite omap_app. apply Forall_app.
  split; apply umash_full_reads_within; exact Hn.
Qed.

(** ** The noise words read by the two halves of a fingerprint *)

Lemma noise_used_range n i :
  0 <= n -> noise_used n i -> 0 <= i < UMASH_PH_PARAM_COUNT.
Proof.
  unfold noise_used, UMASH_PH_PARAM_COUNT. intros Hn.
  destruct (Z.leb_spec n 8); [lia|].
  destruct (Z.leb_spec n 16); [lia|].
  destruct (Z.leb_spec n 256); [|lia].
  Z.div_mod_to_equations. lia.
Qed.

(** A single hash reads its noise slice only at the indices of
    [noise_used], and its polynomial pair only on the medium and long
    paths. *)
Lemma umash_full_footprint k k' seed which data n mu :
  0 <= n < 2 ^ 64 ->
  poly k' = poly k ->
  (forall i, noise_used n i ->
     ph_at k (if which =? 0 then 0 else UMASH_PH_TOEPLITZ_SHIFT) i
     = ph_at k' (if which =? 0 then 0 else UMASH_PH_TOEPLITZ_SHIFT) i) ->
  umash_full k seed which data n mu = umash_full k' seed which data n mu.
Proof.
  intros Hn Hpoly Hp. unfold umash_full, noise_used in *.
  set (shift := if which =? 0 then 0 else UMASH_PH_TOEPLITZ_SHIFT) in *.
  replace (poly_at k' (if which =? 0 then 0 else 1))
    with (poly_at k (if which =? 0 then 0 else 1))
    by (unfold poly_at; now rewrite Hpoly).
  destruct (Z.leb_spec n 16) as [H16|H16].
  - destruct (Z.leb_spec n 8) as [H8|H8].
    + unfold umash_short. now rewrite (Hp n eq_refl).
    + unfold umash_medium. rewrite (Hp 0), (Hp 1) by lia. reflexivity.
  - destruct (Z.leb_spec n 8); [lia|].
    apply umash_long_ext; [lia|]. exact Hp.
Qed.

Lemma fprint_half_0 seed data n mu k :
  fprint_half 0 seed data n mu k = value (umash_full k seed 0 data n) mu.
Proof. unfold fprint_half. now rewrite umash_fprint_halves. Qed.

Lemma fprint_half_1 seed data n mu k :
  fprint_half 1 seed data n mu k = value (umash_full k seed 1 data n) mu.
Proof. unfold fprint_half. now rewrite umash_fprint_halves. Qed.

(** The noise words read by each half of a fingerprint. *)
Lemma fprint_half_0_footprint k seed data n mu :
  0 <= n < 2 ^ 64 ->
  noise_footprint (fprint_half 0 seed data n mu) k
    (fun i => noise_used n (Z.of_nat i)).
Proof.
  intros Hn k' _ _ Hpoly Hag. rewrite !fprint_half_0. unfold value. f_equal.
  symmetry. apply umash_full_footprint; [exact Hn | exact Hpoly|].
  intros i Hi. pose proof (noise_used_range n i ltac:(lia) Hi) as Hr.
  unfold ph_at. change (0 =? 0) with true. cbv iota.
  apply Hag. rewrite Z2Nat.id by lia. now rewrite Z.add_0_l.
Qed.

Lemma fprint_half_1_footprint k seed data n mu :
  0 <= n < 2 ^ 64 ->
  noise_footprint (fprint_half 1 seed data n mu) k
    (fun i => (4 <= i)%nat /\ noise_used n (Z.of_nat i - 4)).
Proof.
  intros Hn k' _ _ Hpoly Hag. rewrite !fprint_half_1. unfold value. f_equal.
  symmetry. apply umash_full_footprint; [exact Hn | exact Hpoly|].
  intros i Hi. pose proof (noise_used_range n i ltac:(lia) Hi) as Hr.
  unfold ph_at. change (1 =? 0) with false. cbv iota.
  change UMASH_PH_TOEPLITZ_SHIFT with 4.
  apply Hag. split; [lia|]. rewrite Z2Nat.id by lia.
  now replace (4 + i - 4) with i by lia.
Qed.

Lemma noise_footprint_mono h k (A A' : nat -> Prop) :
  (forall i, A i -> A' i) -> noise_footprint h k A -> noise_footprint h k A'.
Proof.
  intros Hsub HA k' Hwf Hprep Hpoly Hag. apply HA; try assumption.
  intros i Hi. apply Hag, Hsub, Hi.
Qed.

(** C8 (as amended): the first half of a fingerprint depends only on the
    noise words of the slice that starts at offset 0, the second half only
    on those of the slice that starts at the Toeplitz offset; for inputs of
    at most 32 bytes the two halves depend on disjoint sets of noise words.
    (The two slices themselves overlap, and so do the words read for longer
    inputs.) *)
Theorem fprint_noise_slices k seed data n mu :
  0 <= n < 2 ^ 64 ->
  noise_footprint (fprint_half 0 seed data n mu) k slice0
  /\ noise_footprint (fprint_half 1 seed data n mu) k slice1
  /\ (n <= 32 -> disjoint_noise k seed data n mu).
Proof.
  intros Hn.
  pose proof (fprint_half_0_footprint k seed data n mu Hn) as H0.
  pose proof (fprint_half_1_footprint k seed data n mu Hn) as H1.
  assert (Hs0 : forall i, noise_used n (Z.of_nat i) -> slice0 i).
  { intros i Hi. apply noise_used_range in Hi; [|lia].
    unfold slice0, UMASH_PH_PARAM_COUNT in *. lia. }
  assert (Hs1 : forall i,
            (4 <= i)%nat /\ noise_used n (Z.of_nat i - 4) -> slice1 i).
  { intros i [Hi4 Hi]. apply noise_used_range in Hi; [|lia].
    unfold slice1, UMASH_PH_PARAM_COUNT, UMASH_PH_TOEPLITZ_SHIFT in *. lia. }
  split; [exact (noise_footprint_mono _ _ _ _ Hs0 H0)|].
  split; [exact (noise_footprint_mono _ _ _ _ Hs1 H1)|].
  intros H32.
  exists (fun i => noise_used n (Z.of_nat i)),
         (fun i => (4 <= i)%nat /\ noise_used n (Z.of_nat i - 4)).
  split; [exact Hs0|]. split; [exact Hs1|]. split; [|split; assumption].
  intros i Ha [Hi4 Hb]. unfold noise_used in Ha, Hb.
  destruct (Z.leb_spec n 8); [lia|].
  destruct (Z.leb_spec n 16); [lia|].
  destruct (Z.leb_spec n 256); [|lia].
  revert Ha Hb. Z.div_mod_to_equations. lia.
Qed.

(** An input of 20 bytes: the first half reads noise words 0 to 3, the
    second half words 4 to 7. *)
Lemma fprint_noise_slices_witness :
  noise_footprint (fprint_half 0 0 (input 0) 20 zero_memory) example_key slice0
  /\ noise_footprint (fprint_half 1 0 (input 0) 20 zero_memory) example_key
       slice1
  /\ (20 <= 32 -> disjoint_noise example_key 0 (input 0) 20 zero_memory).
Proof.
  apply (fprint_noise_slices example_key 0 (input 0) 20 zero_memory). lia.
Defined.

Lemma example_key_4_prepared :
  well_formed example_key_4 /\ prepared example_key_4.
Proof.
  split; [split; reflexivity|]. split.
  - repeat constructor.
  - apply NoDup_ListNoDup. cbn.
    repeat (constructor; [cbn; intuition discriminate|]). constructor.
Qed.

Lemma example_key_4_agrees (A : nat -> Prop) :
  ~ A 4%nat -> agree_on A (ph example_key) (ph example_key_4).
Proof.
  intros HA i Hi. destruct (decide (i = 4%nat)) as [->|Hne]; [contradiction|].
  unfold example_key_4. cbn [ph]. rewrite !nth_lookup.
  now rewrite list_lookup_insert_ne by congruence.
Qed.

(** C8 as stated fails: for an input of 33 bytes both halves of the
    fingerprint change when noise word 4 alone changes (it is the fifth
    word of the first slice and the first word of the second), so no two
    disjoint sets of noise words determine the two halves. *)
Lemma fprint_noise_not_disjoint :
  fprint_half 0 0 (input 0) 33 zero_memory example_key
  <> fprint_half 0 0 (input 0) 33 zero_memory example_key_4
  /\ fprint_half 1 0 (input 0) 33 zero_memory example_key
     <> fprint_half 1 0 (input 0) 33 zero_memory example_key_4
  /\ ~ disjoint_noise example_key 0 (input 0) 33 zero_memory.
Proof.
  assert (H0 : fprint_half 0 0 (input 0) 33 zero_memory example_key
               <> fprint_half 0 0 (input 0) 33 zero_memory example_key_4)
    by (vm_compute; discriminate).
  assert (H1 : fprint_half 1 0 (input 0) 33 zero_memory example_key
               <> fprint_half 1 0 (input 0) 33 zero_memory example_key_4)
    by (vm_compute; discriminate).
  split; [exact H0|]. split; [exact H1|].
  intros (A & B & _ & _ & Hdis & FA & FB).
  destruct example_key_4_prepared as [Hwf Hprep].
  assert (HA : ~ ~ A 4%nat).
  { intros HnA. apply H0. symmetry.
    apply (FA example_key_4 Hwf Hprep eq_refl).
    now apply example_key_4_agrees. }
  assert (HB : ~ ~ B 4%nat).
  { intros HnB. apply H1. symmetry.
    apply (FB example_key_4 Hwf Hprep eq_refl).
    now apply example_key_4_agrees. }
  apply HA. intros a. apply HB. intros b. exact (Hdis 4%nat a b).
Qed.

(** * Further properties of the code *)

(** ** Modular arithmetic *)

(** X1: the fast addition of two 64-bit values returns a 64-bit value, and it
    is congruent to the exact sum modulo 2^64 - 8 exactly when the sum is
    below 2^65 - 8; past that, the correction [sum + 8] wraps a second time
    (the comment "If `sum` overflows, `sum + 8` does not" needs one operand
    below 2^64 - 8). *)
Theorem add_mod_fast_congr_iff x y :
  is_u64 x -> is_u64 y ->
  is_u64 (add_mod_fast x y)
  /\ (add_mod_fast x y mod (2 ^ 64 - 8) = (x + y) mod (2 ^ 64 - 8)
      <-> x + y < 2 ^ 65 - 8).
Proof.
  intros Hx Hy. split; [apply add_mod_fast_range|].
  split; [|now apply add_mod_fast_congr].
  intros Heq. destruct (Z.lt_ge_cases (x + y) (2 ^ 65 - 8)) as [|Hge];
    [assumption|].
  exfalso. revert Heq. unfold add_mod_fast, uaddll_overflow. word_arith.
Qed.

(** Both operands at their largest: the sum wraps twice. *)
Lemma add_mod_fast_congr_iff_witness :
  is_u64 (add_mod_fast (2 ^ 64 - 1) (2 ^ 64 - 1))
  /\ (add_mod_fast (2 ^ 64 - 1) (2 ^ 64 - 1) mod (2 ^ 64 - 8)
      = ((2 ^ 64 - 1) + (2 ^ 64 - 1)) mod (2 ^ 64 - 8)
      <-> (2 ^ 64 - 1) + (2 ^ 64 - 1) < 2 ^ 65 - 8).
Proof.
  apply (add_mod_fast_congr_iff (2 ^ 64 - 1) (2 ^ 64 - 1));
    unfold is_u64; lia.
Defined.

(** X2: the slow path of the slow addition, on its own: for a 64-bit [sum]
    and a correction of at most 8 it returns [sum + fixup] fully reduced
    modulo 2^64 - 8. *)
Theorem add_mod_slow_slow_path_reduces sum fixup :
  is_u64 sum -> 0 <= fixup <= 8 ->
  add_mod_slow_slow_path sum fixup = (sum + fixup) mod (2 ^ 64 - 8).
Proof. intros Hs Hf. unfold add_mod_slow_slow_path. word_arith. Qed.

(** The largest sum with the correction of an overflow. *)
Lemma add_mod_slow_slow_path_reduces_witness :
  add_mod_slow_slow_path (2 ^ 64 - 1) 8
  = ((2 ^ 64 - 1) + 8) mod (2 ^ 64 - 8).
Proof.
  apply (add_mod_slow_slow_path_reduces (2 ^ 64 - 1) 8); unfold is_u64; lia.
Defined.

Lemma horner_double_update_value acc m0 m1 x y :
  is_u64 acc -> is_u64 x -> is_u64 y ->
  0 <= m0 < 2 ^ 61 -> 0 <= m1 < 2 ^ 61 ->
  acc + x < 2 ^ 65 - 8 ->
  horner_double_update acc m0 m1 x y
  = (m0 * (acc + x) + m1 * y) mod (2 ^ 64 - 8).
Proof.
  intros Ha Hx Hy Hm0 Hm1 Hs. unfold horner_double_update.
  pose proof (add_mod_fast_range acc x) as Hr.
  assert (H0 : is_u64 (mul_mod_fast m0 (add_mod_fast acc x)))
    by (unfold mul_mod_fast; apply add_mod_fast_range).
  assert (H1 : is_u64 (mul_mod_fast m1 y))
    by (unfold mul_mod_fast; apply add_mod_fast_range).
  rewrite (add_mod_slow_reduces _ _ H0 H1).
  rewrite Z.add_mod by lia.
  rewrite (mul_mod_fast_small_multiplier m0 _ Hm0 Hr).
  rewrite (mul_mod_fast_small_multiplier m1 y Hm1 Hy).
  rewrite <- Z.add_mod by lia.
  rewrite <- (Z.add_mod_idemp_l (m0 * add_mod_fast acc x)) by lia.
  rewrite <- (Z.mul_mod_idemp_r m0 (add_mod_fast acc x)) by lia.
  rewrite (add_mod_fast_congr acc x Ha Hx Hs).
  rewrite Z.mul_mod_idemp_r by lia. rewrite Z.add_mod_idemp_l by lia.
  reflexivity.
Qed.

(** X3: one Horner step.  With multipliers below 2^61 (as in a prepared
    key), 64-bit inputs and an accumulator that is reduced (below 2^64 - 8),
    [horner_double_update] returns [m0 * (acc + x) + m1 * y] reduced modulo
    2^64 - 8: the result is again a reduced accumulator. *)
Theorem horner_double_update_correct acc m0 m1 x y :
  0 <= acc < 2 ^ 64 - 8 -> is_u64 x -> is_u64 y ->
  0 <= m0 < 2 ^ 61 -> 0 <= m1 < 2 ^ 61 ->
  horner_double_update acc m0 m1 x y
  = (m0 * (acc + x) + m1 * y) mod (2 ^ 64 - 8)
  /\ 0 <= horner_double_update acc m0 m1 x y < 2 ^ 64 - 8.
Proof.
  intros Ha Hx Hy Hm0 Hm1.
  rewrite horner_double_update_value;
    try assumption; try (unfold is_u64 in *; lia).
  split; [reflexivity | apply Z.mod_pos_bound; lia].
Qed.

(** The largest reduced accumulator, multipliers and inputs. *)
Lemma horner_double_update_correct_witness :
  horner_double_update (2 ^ 64 - 9) (2 ^ 61 - 2) (2 ^ 61 - 2) (2 ^ 64 - 1)
    (2 ^ 64 - 1)
  = ((2 ^ 61 - 2) * ((2 ^ 64 - 9) + (2 ^ 64 - 1))
     + (2 ^ 61 - 2) * (2 ^ 64 - 1)) mod (2 ^ 64 - 8)
  /\ 0 <= horner_double_update (2 ^ 64 - 9) (2 ^ 61 - 2) (2 ^ 61 - 2)
            (2 ^ 64 - 1) (2 ^ 64 - 1) < 2 ^ 64 - 8.
Proof.
  apply (horner_double_update_correct (2 ^ 64 - 9) (2 ^ 61 - 2) (2 ^ 61 - 2)
           (2 ^ 64 - 1) (2 ^ 64 - 1)); unfold is_u64; lia.
Defined.

(** ** The mixers are bijections of the 64-bit words *)

Lemma log2_u64 a : is_u64 a -> Z.log2 a < 64.
Proof.
  intros [H0 H1]. destruct (Z.eq_dec a 0) as [->|Hne]; [reflexivity|].
  apply Z.log2_lt_pow2; lia.
Qed.

Lemma u64_of_log2 a : 0 <= a -> Z.log2 a < 64 -> is_u64 a.
Proof.
  intros H0 Hl. split; [exact H0|].
  destruct (Z.eq_dec a 0) as [->|Hne]; [lia|].
  apply Z.log2_lt_pow2; lia.
Qed.

Lemma lxor_u64 a b : is_u64 a -> is_u64 b -> is_u64 (Z.lxor a b).
Proof.
  intros Ha Hb. pose proof (log2_u64 a Ha). pose proof (log2_u64 b Hb).
  destruct Ha, Hb. apply u64_of_log2; [apply Z.lxor_nonneg; tauto|].
  pose proof (Z.log2_lxor a b ltac:(lia) ltac:(lia)). lia.
Qed.

Lemma lor_u64 a b : is_u64 a -> is_u64 b -> is_u64 (Z.lor a b).
Proof.
  intros Ha Hb. pose proof (log2_u64 a Ha). pose proof (log2_u64 b Hb).
  destruct Ha, Hb. apply u64_of_log2; [apply Z.lor_nonneg; tauto|].
  pose proof (Z.log2_lor a b ltac:(lia) ltac:(lia)). lia.
Qed.

Lemma shiftr_u64 a s : 0 <= s -> is_u64 a -> is_u64 (Z.shiftr a s).
Proof.
  intros Hs [H0 H1]. rewrite Z.shiftr_div_pow2 by exact Hs.
  assert (0 < 2 ^ s) by (apply Z.pow_pos_nonneg; lia).
  split; [apply Z.div_pos; lia|].
  apply Z.le_lt_trans with a; [|exact H1].
  apply Z.div_le_upper_bound; nia.
Qed.

Lemma shiftr_u64_zero a s : 64 <= s -> is_u64 a -> Z.shiftr a s = 0.
Proof.
  intros Hs [H0 H1]. rewrite Z.shiftr_div_pow2 by lia.
  apply Z.div_small. split; [exact H0|].
  apply Z.lt_le_trans with (2 ^ 64); [exact H1|].
  apply Z.pow_le_mono_r; lia.
Qed.

Lemma lxor_cancel_middle x a b :
  Z.lxor (Z.lxor x a) (Z.lxor a b) = Z.lxor x b.
Proof.
  rewrite Z.lxor_assoc, <- (Z.lxor_assoc a a b), Z.lxor_nilpotent.
  now rewrite Z.lxor_0_l.
Qed.

(** [unxorshift] undoes the xorshift, and the xorshift undoes
    [unxorshift]. *)
Lemma unxorshift_xorshift s x :
  0 < s -> 64 <= 3 * s -> is_u64 x ->
  unxorshift s (Z.lxor x (Z.shiftr x s)) = x.
Proof.
  intros Hs H3 Hx. unfold unxorshift.
  rewrite !Z.shiftr_lxor, !Z.shiftr_shiftr by lia.
  rewrite (shiftr_u64_zero x (s + 2 * s)) by (assumption || lia).
  replace (s + s) with (2 * s) by lia.
  rewrite lxor_cancel_middle, Z.lxor_0_r.
  rewrite Z.lxor_assoc, Z.lxor_nilpotent. apply Z.lxor_0_r.
Qed.

Lemma lxor_cancel_pair y a b :
  Z.lxor (Z.lxor (Z.lxor y a) b) (Z.lxor a b) = y.
Proof.
  apply Z.bits_inj'. intros n _. rewrite !Z.lxor_spec.
  destruct (Z.testbit y n), (Z.testbit a n), (Z.testbit b n); reflexivity.
Qed.

Lemma xorshift_unxorshift s y :
  0 < s -> 64 <= 3 * s -> is_u64 y ->
  Z.lxor (unxorshift s y) (Z.shiftr (unxorshift s y) s) = y.
Proof.
  intros Hs H3 Hy. unfold unxorshift.
  rewrite !Z.shiftr_lxor, !Z.shiftr_shiftr by lia.
  rewrite (shiftr_u64_zero y (2 * s + s)) by (assumption || lia).
  replace (s + s) with (2 * s) by lia.
  rewrite Z.lxor_0_r. apply lxor_cancel_pair.
Qed.

Lemma unxorshift_u64 s y : 0 <= s -> is_u64 y -> is_u64 (unxorshift s y).
Proof.
  intros Hs Hy. unfold unxorshift.
  repeat apply lxor_u64; try assumption; apply shiftr_u64; (lia || assumption).
Qed.

(** Multiplying by an odd constant modulo 2^64 is undone by multiplying by
    its inverse. *)
Lemma mul_inverse_u64 c c' x :
  (c * c') mod 2 ^ 64 = 1 -> is_u64 x ->
  ((x * c) mod 2 ^ 64 * c') mod 2 ^ 64 = x.
Proof.
  intros Hc Hx. rewrite Z.mul_mod_idemp_l by lia.
  rewrite <- Z.mul_assoc, <- Z.mul_mod_idemp_r by lia.
  rewrite Hc, Z.mul_1_r. apply Z.mod_small. exact Hx.
Qed.

Lemma finalize_u64 x : is_u64 (finalize x).
Proof. unfold finalize. apply u64_range. Qed.

Lemma finalize_inverse_left x :
  is_u64 x -> finalize_inverse (finalize x) = x.
Proof.
  intros Hx. unfold finalize_inverse, finalize, u64.
  rewrite (mul_inverse_u64 0x94d049bb133111eb INV_94D0)
    by (reflexivity || (apply lxor_u64; [|apply shiftr_u64]; (lia || assumption))).
  apply unxorshift_xorshift; (lia || assumption).
Qed.

Lemma finalize_inverse_right z :
  is_u64 z -> finalize (finalize_inverse z) = z.
Proof.
  intros Hz. unfold finalize_inverse, finalize, u64.
  rewrite xorshift_unxorshift by (lia || apply Z.mod_pos_bound; lia).
  apply (mul_inverse_u64 INV_94D0 0x94d049bb133111eb); [reflexivity|exact Hz].
Qed.

(** X4: the finaliser is a bijection of the 64-bit words: it maps 64-bit
    words to 64-bit words and [finalize_inverse] undoes it on both sides. *)
Theorem finalize_bijective x :
  is_u64 x ->
  is_u64 (finalize x) /\ is_u64 (finalize_inverse x)
  /\ finalize_inverse (finalize x) = x
  /\ finalize (finalize_inverse x) = x.
Proof.
  intros Hx. split; [apply finalize_u64|].
  split; [apply unxorshift_u64; [lia | apply Z.mod_pos_bound; lia]|].
  split; [now apply finalize_inverse_left | now apply finalize_inverse_right].
Qed.

Lemma finalize_bijective_witness :
  is_u64 (finalize 0x0123456789ABCDEF)
  /\ is_u64 (finalize_inverse 0x0123456789ABCDEF)
  /\ finalize_inverse (finalize 0x0123456789ABCDEF) = 0x0123456789ABCDEF
  /\ finalize (finalize_inverse 0x0123456789ABCDEF) = 0x0123456789ABCDEF.
Proof.
  apply (finalize_bijective 0x0123456789ABCDEF). unfold is_u64. lia.
Defined.

Lemma short_mix_pre_u64 h : is_u64 h -> is_u64 (short_mix_pre h).
Proof.
  intros Hh. unfold short_mix_pre.
  apply lxor_u64; [|apply shiftr_u64; [lia|]]; apply Z.mod_pos_bound; lia.
Qed.

Lemma short_mix_pre_inverse_left h :
  is_u64 h -> short_mix_pre_inverse (short_mix_pre h) = h.
Proof.
  intros Hh. unfold short_mix_pre_inverse, short_mix_pre.
  rewrite unxorshift_xorshift by (lia || apply Z.mod_pos_bound; lia).
  rewrite (mul_inverse_u64 0xBF58476D1CE4E5B9 INV_BF58)
    by (reflexivity || (apply lxor_u64; [|apply shiftr_u64]; (lia || assumption))).
  apply unxorshift_xorshift; (lia || assumption).
Qed.

Lemma short_mix_post_inverse_left w :
  is_u64 w -> short_mix_post_inverse (short_mix_post w) = w.
Proof.
  intros Hw. unfold short_mix_post_inverse, short_mix_post.
  rewrite unxorshift_xorshift by (lia || apply Z.mod_pos_bound; lia).
  apply (mul_inverse_u64 0x94D049BB133111EB INV_94D0); [reflexivity|exact Hw].
Qed.

Lemma vec_to_u64_u64 data n mu : is_u64 (value (vec_to_u64 data n) mu).
Proof.
  unfold vec_to_u64. rewrite value_bind.
  destruct (value (A := Z * Z) _ mu) as [hi lo]. unfold value, ret. cbn [fst].
  apply lor_u64; [apply u64_range|].
  unfold u32, is_u64. pose proof (Z.mod_pos_bound (lo + hi) (2 ^ 32)). lia.
Qed.

(** The word that the short mixer hides, recovered from a digest. *)
Lemma umash_short_unmix params seed data n mu :
  short_mix_pre_inverse
    (Z.lxor (short_mix_post_inverse (value (umash_short params seed data n) mu))
            (u64 (seed + params n)))
  = value (vec_to_u64 data n) mu.
Proof.
  rewrite umash_short_value. unfold short_mix.
  pose proof (vec_to_u64_u64 data n mu) as Hh.
  pose proof (short_mix_pre_u64 _ Hh) as Hp.
  pose proof (u64_range (seed + params n)) as Hk.
  rewrite short_mix_post_inverse_left by (now apply lxor_u64).
  rewrite Z.lxor_assoc, Z.lxor_nilpotent, Z.lxor_0_r.
  now apply short_mix_pre_inverse_left.
Qed.

(** X5: the short hash is invertible for who knows the key: undoing the
    second half of the mixer, XORing with (seed + noise word) and undoing
    the first half gives back the 64-bit word decoded from the input. *)
Theorem umash_short_invertible params seed data n mu :
  short_mix_pre_inverse
    (Z.lxor (short_mix_post_inverse (value (umash_short params seed data n) mu))
            ((seed + params n) mod 2 ^ 64))
  = value (vec_to_u64 data n) mu.
Proof. apply umash_short_unmix. Qed.

(** ** The bytes decoded by the short path *)

Lemma byte_at_range mu o : 0 <= byte_at mu o < 2 ^ 8.
Proof.
  unfold byte_at. pose proof (Byte.to_N_bounded (mu o)). lia.
Qed.

Lemma byte_at_inj mu1 o1 mu2 o2 :
  byte_at mu1 o1 = byte_at mu2 o2 -> mu1 o1 = mu2 o2.
Proof.
  unfold byte_at. intros H. apply N2Z.inj in H.
  apply (f_equal Byte.of_N) in H. rewrite !Byte.of_to_N in H.
  now injection H.
Qed.

Lemma le_word_range mu len : forall o,
  0 <= le_word mu o len < 2 ^ (8 * Z.of_nat len).
Proof.
  induction len as [|len IH]; intros o; [cbn; lia|].
  cbn [le_word]. specialize (IH (o + 1)). pose proof (byte_at_range mu o).
  replace (8 * Z.of_nat (S len)) with (8 + 8 * Z.of_nat len) by lia.
  rewrite Z.pow_add_r by lia. lia.
Qed.

Lemma memcpy_input_value mu len : forall d,
  value (memcpy (input d) len) mu = le_word mu d len.
Proof.
  unfold memcpy. intros d. rewrite value_bind. unfold value at 1, ret.
  cbn [fst]. revert d.
  induction len as [|len IH]; intros d; [reflexivity|].
  cbn [load_bytes le_word]. rewrite !value_bind. unfold value at 1, ret.
  cbn [fst le_combine]. f_equal. f_equal. apply (IH (d + 1)).
Qed.

Lemma memcpy_zeros_value mu len : forall k,
  value (memcpy (ptr_add zeros k) len) mu = 0.
Proof.
  unfold memcpy. intros k. rewrite value_bind. unfold value at 1, ret.
  cbn [fst]. revert k.
  induction len as [|len IH]; intros k; [reflexivity|].
  cbn [load_bytes]. rewrite !value_bind. unfold value at 1, ret.
  cbn [fst le_combine].
  change (ptr_add (ptr_add zeros k) 1) with (ptr_add zeros (k + 1)).
  rewrite (IH (k + 1)). reflexivity.
Qed.

(** Two little-endian words are equal exactly when their bytes are. *)
Lemma le_word_inj mu1 mu2 len : forall o1 o2,
  le_word mu1 o1 len = le_word mu2 o2 len ->
  forall j, 0 <= j < Z.of_nat len -> mu1 (o1 + j) = mu2 (o2 + j).
Proof.
  induction len as [|len IH]; intros o1 o2 H j Hj; [lia|].
  cbn [le_word] in H.
  pose proof (byte_at_range mu1 o1). pose proof (byte_at_range mu2 o2).
  assert (Hb : byte_at mu1 o1 = byte_at mu2 o2) by lia.
  assert (Hw : le_word mu1 (o1 + 1) len = le_word mu2 (o2 + 1) len) by lia.
  destruct (Z.eq_dec j 0) as [->|Hne].
  - rewrite !Z.add_0_r. now apply byte_at_inj.
  - replace (o1 + j) with (o1 + 1 + (j - 1)) by lia.
    replace (o2 + j) with (o2 + 1 + (j - 1)) by lia.
    apply (IH _ _ Hw). lia.
Qed.

Lemma le_word_ext mu1 mu2 len : forall o1 o2,
  (forall j, 0 <= j < Z.of_nat len -> mu1 (o1 + j) = mu2 (o2 + j)) ->
  le_word mu1 o1 len = le_word mu2 o2 len.
Proof.
  induction len as [|len IH]; intros o1 o2 H; [reflexivity|].
  cbn [le_word]. f_equal.
  - unfold byte_at. specialize (H 0 ltac:(lia)).
    rewrite !Z.add_0_r in H. now rewrite H.
  - f_equal. apply IH. intros j Hj.
    replace (o1 + 1 + j) with (o1 + (1 + j)) by lia.
    replace (o2 + 1 + j) with (o2 + (1 + j)) by lia.
    apply H. lia.
Qed.

Lemma land_high_low a t : 0 <= t < 2 ^ 32 -> Z.land (a * 2 ^ 32) t = 0.
Proof.
  intros Ht. apply Z.bits_inj'. intros n Hn.
  rewrite Z.land_spec, Z.bits_0.
  destruct (Z.lt_ge_cases n 32) as [Hlt|Hge].
  - rewrite Z.mul_pow2_bits_low by lia. reflexivity.
  - replace (Z.testbit t n) with false; [apply andb_false_r|].
    symmetry. apply Z.testbit_false; [exact Hn|].
    rewrite Z.div_small; [reflexivity|]. split; [lia|].
    apply Z.lt_le_trans with (2 ^ 32); [lia|].
    apply Z.pow_le_mono_r; lia.
Qed.

(** The combination [((uint64_t)hi << 32) | (lo + hi)] of [vec_to_u64]. *)
Lemma combine_word hi lo :
  0 <= hi < 2 ^ 32 ->
  Z.lor (u64 (Z.shiftl hi 32)) (u32 (lo + hi))
  = hi * 2 ^ 32 + (lo + hi) mod 2 ^ 32.
Proof.
  intros Hhi. rewrite Z.shiftl_mul_pow2 by lia. unfold u64, u32.
  rewrite (Z.mod_small (hi * 2 ^ 32)) by lia.
  pose proof (Z.mod_pos_bound (lo + hi) (2 ^ 32) ltac:(lia)) as Ht.
  rewrite <- (Z.add_lor_land (hi * 2 ^ 32)), (land_high_low hi _ Ht).
  lia.
Qed.

Lemma combine_word_inj hi lo hi' lo' :
  0 <= hi < 2 ^ 32 -> 0 <= lo < 2 ^ 32 ->
  0 <= hi' < 2 ^ 32 -> 0 <= lo' < 2 ^ 32 ->
  hi * 2 ^ 32 + (lo + hi) mod 2 ^ 32 = hi' * 2 ^ 32 + (lo' + hi') mod 2 ^ 32 ->
  hi = hi' /\ lo = lo'.
Proof. intros H1 H2 H3 H4. Z.div_mod_to_equations. lia. Qed.

(** The two 32-bit halves that [vec_to_u64] decodes from [n] bytes. *)
Lemma vec_to_u64_value d n mu :
  0 <= n <= 8 ->
  value (vec_to_u64 (input d) n) mu
  = (if 4 <=? n then le_word mu (d + (n - 4)) 4
     else if 2 <=? n then le_word mu (d + (n - 2)) 2 else 0) * 2 ^ 32
    + ((if 4 <=? n then le_word mu d 4
        else if Z.odd n then le_word mu d 1 else 0)
       + (if 4 <=? n then le_word mu (d + (n - 4)) 4
          else if 2 <=? n then le_word mu (d + (n - 2)) 2 else 0)) mod 2 ^ 32.
Proof.
  intros Hn. unfold vec_to_u64. rewrite value_bind.
  pose proof (le_word_range mu 4 (d + (n - 4))) as R4.
  pose proof (le_word_range mu 2 (d + (n - 2))) as R2.
  change (2 ^ (8 * Z.of_nat 4)) with (2 ^ 32) in R4.
  change (2 ^ (8 * Z.of_nat 2)) with (2 ^ 16) in R2.
  destruct (Z.leb_spec 4 n) as [H4|H4].
  - rewrite !value_bind.
    change (ptr_add (input d) (n - 4)) with (input (d + (n - 4))).
    rewrite !memcpy_input_value. unfold value, ret. cbn [fst].
    apply combine_word. lia.
  - assert (Hc : n = 0 \/ n = 1 \/ n = 2 \/ n = 3) by lia.
    repeat destruct Hc as [->|Hc]; try subst n;
      cbn [Z.land Pos.land Z.eqb negb Z.odd Z.leb Z.compare Pos.compare
           Pos.compare_cont];
      rewrite !value_bind;
      change (ptr_add (input d) (2 - 2)) with (input (d + (2 - 2)));
      change (ptr_add (input d) (3 - 2)) with (input (d + (3 - 2)));
      change zeros with (ptr_add zeros 0);
      rewrite ?memcpy_input_value, ?memcpy_zeros_value;
      unfold value, ret; cbn [fst];
      apply combine_word; lia.
Qed.

(** [vec_to_u64] decodes [n] bytes without loss: two inputs of the same
    length give the same word exactly when their bytes are the same. *)
Lemma vec_to_u64_same_bytes d1 d2 n mu1 mu2 :
  0 <= n <= 8 ->
  (value (vec_to_u64 (input d1) n) mu1 = value (vec_to_u64 (input d2) n) mu2
   <-> forall i, 0 <= i < n -> mu1 (d1 + i) = mu2 (d2 + i)).
Proof.
  intros Hn. rewrite !vec_to_u64_value by exact Hn.
  pose proof (le_word_range mu1 4 d1) as L1.
  pose proof (le_word_range mu2 4 d2) as L2.
  pose proof (le_word_range mu1 4 (d1 + (n - 4))) as H1.
  pose proof (le_word_range mu2 4 (d2 + (n - 4))) as H2.
  pose proof (le_word_range mu1 1 d1) as B1.
  pose proof (le_word_range mu2 1 d2) as B2.
  pose proof (le_word_range mu1 2 (d1 + (n - 2))) as W1.
  pose proof (le_word_range mu2 2 (d2 + (n - 2))) as W2.
  change (2 ^ (8 * Z.of_nat 4)) with (2 ^ 32) in *.
  change (2 ^ (8 * Z.of_nat 2)) with (2 ^ 16) in *.
  change (2 ^ (8 * Z.of_nat 1)) with (2 ^ 8) in *.
  split.
  - intros Heq i Hi.
    apply combine_word_inj in Heq;
      try (destruct (4 <=? n), (2 <=? n), (Z.odd n); lia).
    destruct Heq as [Hhi Hlo].
    destruct (Z.leb_spec 4 n) as [H4|H4].
    + destruct (Z.lt_ge_cases i 4) as [Hlt|Hge].
      * apply (le_word_inj _ _ 4 _ _ Hlo). lia.
      * replace (d1 + i) with (d1 + (n - 4) + (i - (n - 4))) by lia.
        replace (d2 + i) with (d2 + (n - 4) + (i - (n - 4))) by lia.
        apply (le_word_inj _ _ 4 _ _ Hhi). lia.
    + assert (Hc : n = 1 \/ n = 2 \/ n = 3) by lia.
      repeat destruct Hc as [->|Hc]; try subst n;
        cbn [Z.leb Z.compare Pos.compare Pos.compare_cont Z.odd] in Hhi, Hlo.
      * apply (le_word_inj _ _ 1 _ _ Hlo). lia.
      * replace (d1 + i) with (d1 + (2 - 2) + i) by lia.
        replace (d2 + i) with (d2 + (2 - 2) + i) by lia.
        apply (le_word_inj _ _ 2 _ _ Hhi). lia.
      * destruct (Z.eq_dec i 0) as [->|Hne].
        -- apply (le_word_inj _ _ 1 _ _ Hlo). lia.
        -- replace (d1 + i) with (d1 + (3 - 2) + (i - 1)) by lia.
           replace (d2 + i) with (d2 + (3 - 2) + (i - 1)) by lia.
           apply (le_word_inj _ _ 2 _ _ Hhi). lia.
  - intros Hb.
    assert (E4 : 4 <= n -> le_word mu1 d1 4 = le_word mu2 d2 4).
    { intros H4. apply le_word_ext. intros j Hj. apply Hb. lia. }
    assert (E4' : 4 <= n ->
              le_word mu1 (d1 + (n - 4)) 4 = le_word mu2 (d2 + (n - 4)) 4).
    { intros H4. apply le_word_ext. intros j Hj.
      rewrite <- !Z.add_assoc. apply Hb. lia. }
    assert (E1 : 1 <= n -> le_word mu1 d1 1 = le_word mu2 d2 1).
    { intros H1'. apply le_word_ext. intros j Hj. apply Hb. lia. }
    assert (E2 : 2 <= n ->
              le_word mu1 (d1 + (n - 2)) 2 = le_word mu2 (d2 + (n - 2)) 2).
    { intros H2'. apply le_word_ext. intros j Hj.
      rewrite <- !Z.add_assoc. apply Hb. lia. }
    destruct (Z.leb_spec 4 n); [now rewrite E4, E4' by lia|].
    assert (Hodd : Z.odd n = true -> 1 <= n).
    { intros Ho. destruct (Z.eq_dec n 0) as [->|]; [discriminate|lia]. }
    destruct (Z.leb_spec 2 n), (Z.odd n) eqn:Ho;
      rewrite ?E2, ?E1 by auto with zarith; reflexivity.
Qed.

(** X6: the short path never confuses two inputs of the same length: with
    the same key, seed and length [n] in [0, 8], two inputs have the same
    hash exactly when their [n] bytes are the same. *)
Theorem umash_short_collision_free params seed d1 d2 n mu1 mu2 :
  0 <= n <= 8 ->
  (value (umash_short params seed (input d1) n) mu1
   = value (umash_short params seed (input d2) n) mu2
   <-> forall i, 0 <= i < n -> mu1 (d1 + i) = mu2 (d2 + i)).
Proof.
  intros Hn. rewrite <- (vec_to_u64_same_bytes d1 d2 n mu1 mu2 Hn). split.
  - intros Heq.
    rewrite <- (umash_short_unmix params seed (input d1) n mu1).
    rewrite <- (umash_short_unmix params seed (input d2) n mu2).
    now rewrite Heq.
  - intros Heq. rewrite !umash_short_value. now rewrite Heq.
Qed.

(** The three bytes "abc" at two places of two buffers. *)
Lemma umash_short_collision_free_witness :
  value (umash_short (ph_at example_key 0) 7 (input 0) 3)
    (bytes_memory [x61; x62; x63])
  = value (umash_short (ph_at example_key 0) 7 (input 1) 3)
      (bytes_memory [x00; x61; x62; x63])
  <-> forall i, 0 <= i < 3 ->
        bytes_memory [x61; x62; x63] (0 + i)
        = bytes_memory [x00; x61; x62; x63] (1 + i).
Proof.
  apply (umash_short_collision_free (ph_at example_key 0) 7 0 1 3
           (bytes_memory [x61; x62; x63])
           (bytes_memory [x00; x61; x62; x63])).
  lia.
Defined.

(** ** Distinct noise words give distinct short hashes *)

Lemma short_mix_key_inj h k1 k2 :
  is_u64 h -> is_u64 k1 -> is_u64 k2 ->
  short_mix h k1 = short_mix h k2 -> k1 = k2.
Proof.
  intros Hh H1 H2 Heq. unfold short_mix in Heq.
  pose proof (short_mix_pre_u64 h Hh) as Hp.
  apply (f_equal short_mix_post_inverse) in Heq.
  rewrite !short_mix_post_inverse_left in Heq by (now apply lxor_u64).
  apply (f_equal (Z.lxor (short_mix_pre h))) in Heq.
  now rewrite <- !Z.lxor_assoc, !Z.lxor_nilpotent, !Z.lxor_0_l in Heq.
Qed.

Lemma noise_word_u64 k i :
  noise_is_u64 k -> (i < length (ph k))%nat -> is_u64 (nth i (ph k) 0).
Proof.
  intros Hu Hi. destruct (lookup_lt_is_Some_2 (ph k) i Hi) as [x Hx].
  rewrite (nth_lookup_Some _ _ 0 _ Hx).
  exact (proj1 (Forall_lookup _ _) Hu i x Hx).
Qed.

Lemma noise_word_distinct k i j :
  NoDup (ph k) -> (i < length (ph k))%nat -> (j < length (ph k))%nat ->
  nth i (ph k) 0 = nth j (ph k) 0 -> i = j.
Proof.
  intros Hnd Hi Hj Heq.
  destruct (lookup_lt_is_Some_2 (ph k) i Hi) as [x Hx].
  destruct (lookup_lt_is_Some_2 (ph k) j Hj) as [y Hy].
  rewrite (nth_lookup_Some _ _ 0 _ Hx), (nth_lookup_Some _ _ 0 _ Hy) in Heq.
  subst y. exact (NoDup_lookup _ _ _ _ Hnd Hx Hy).
Qed.

(** Two short hashes of the same decoded word, under noise words at two
    different places of a table without repetition, differ. *)
Lemma short_hashes_differ k seed s1 s2 d1 d2 n1 n2 mu1 mu2 :
  well_formed k -> NoDup (ph k) -> noise_is_u64 k ->
  0 <= n1 <= 8 -> 0 <= n2 <= 8 -> 0 <= s1 <= 4 -> 0 <= s2 <= 4 ->
  s1 + n1 <> s2 + n2 ->
  value (vec_to_u64 (input d1) n1) mu1 = value (vec_to_u64 (input d2) n2) mu2 ->
  value (umash_short (ph_at k s1) seed (input d1) n1) mu1
  <> value (umash_short (ph_at k s2) seed (input d2) n2) mu2.
Proof.
  intros [_ Hlen] Hnd Hu Hn1 Hn2 Hs1 Hs2 Hne Hvec Heq.
  rewrite !umash_short_value, Hvec in Heq.
  apply short_mix_key_inj in Heq;
    [|apply vec_to_u64_u64|apply u64_range|apply u64_range].
  unfold ph_at in Heq.
  assert (L1 : (Z.to_nat (s1 + n1) < length (ph k))%nat)
    by (rewrite Hlen; change PH_SIZE with 36%nat; lia).
  assert (L2 : (Z.to_nat (s2 + n2) < length (ph k))%nat)
    by (rewrite Hlen; change PH_SIZE with 36%nat; lia).
  pose proof (noise_word_u64 k _ Hu L1) as U1.
  pose proof (noise_word_u64 k _ Hu L2) as U2.
  assert (Hw : nth (Z.to_nat (s1 + n1)) (ph k) 0
               = nth (Z.to_nat (s2 + n2)) (ph k) 0).
  { revert Heq U1 U2. unfold u64, is_u64.
    generalize (nth (Z.to_nat (s1 + n1)) (ph k) 0).
    generalize (nth (Z.to_nat (s2 + n2)) (ph k) 0).
    intros a b. Z.div_mod_to_equations. lia. }
  apply (noise_word_distinct k _ _ Hnd L1 L2) in Hw. lia.
Qed.

(** X7: for an input of at most 8 bytes, the two halves of the fingerprint
    under a key whose noise words are pairwise distinct are never equal. *)
Theorem fprint_short_halves_differ k seed d n mu :
  well_formed k -> NoDup (ph k) -> noise_is_u64 k ->
  0 <= n <= 8 ->
  fprint_half 0 seed (input d) n mu k <> fprint_half 1 seed (input d) n mu k.
Proof.
  intros Hwf Hnd Hu Hn. rewrite fprint_half_0, fprint_half_1.
  unfold umash_full. change (0 =? 0) with true. change (1 =? 0) with false.
  cbv iota.
  destruct (Z.leb_spec n 16); [|lia]. destruct (Z.leb_spec n 8); [|lia].
  apply (short_hashes_differ k seed 0 UMASH_PH_TOEPLITZ_SHIFT d d n n mu mu);
    try assumption; unfold UMASH_PH_TOEPLITZ_SHIFT; lia.
Qed.

Lemma fprint_short_halves_differ_witness :
  fprint_half 0 7 (input 0) 3 (bytes_memory [x61; x62; x63]) example_key
  <> fprint_half 1 7 (input 0) 3 (bytes_memory [x61; x62; x63]) example_key.
Proof.
  apply (fprint_short_halves_differ example_key 7 0 3
           (bytes_memory [x61; x62; x63])).
  - split; reflexivity.
  - apply example_key_prepared.
  - unfold noise_is_u64. apply Forall_forall. intros x Hx.
    apply list_elem_of_In in Hx. cbn in Hx. unfold is_u64.
    repeat (destruct Hx as [<-|Hx]; [lia|]). destruct Hx.
  - lia.
Defined.

(** X8: the short path binds the length into the hash: under a key whose
    noise words are pairwise distinct, two inputs of different lengths (at
    most 8) that decode to the same 64-bit word, such as "" and one zero
    byte, never have the same hash. *)
Theorem umash_full_short_binds_length k seed which d1 d2 n1 n2 mu1 mu2 :
  well_formed k -> NoDup (ph k) -> noise_is_u64 k ->
  0 <= n1 <= 8 -> 0 <= n2 <= 8 -> n1 <> n2 ->
  value (vec_to_u64 (input d1) n1) mu1 = value (vec_to_u64 (input d2) n2) mu2 ->
  value (umash_full k seed which (input d1) n1) mu1
  <> value (umash_full k seed which (input d2) n2) mu2.
Proof.
  intros Hwf Hnd Hu Hn1 Hn2 Hne Hvec. unfold umash_full.
  destruct (Z.leb_spec n1 16); [|lia]. destruct (Z.leb_spec n1 8); [|lia].
  destruct (Z.leb_spec n2 16); [|lia]. destruct (Z.leb_spec n2 8); [|lia].
  apply short_hashes_differ; try assumption;
    unfold UMASH_PH_TOEPLITZ_SHIFT; destruct (which =? 0); lia.
Qed.

(** The empty input and the input of one zero byte. *)
Lemma umash_full_short_binds_length_witness :
  value (umash_full example_key 7 0 (input 0) 0) zero_memory
  <> value (umash_full example_key 7 0 (input 0) 1) zero_memory.
Proof.
  apply (umash_full_short_binds_length example_key 7 0 0 0 0 1
           zero_memory zero_memory).
  - split; reflexivity.
  - apply example_key_prepared.
  - unfold noise_is_u64. apply Forall_forall. intros x Hx.
    apply list_elem_of_In in Hx. cbn in Hx. unfold is_u64.
    repeat (destruct Hx as [<-|Hx]; [lia|]). destruct Hx.
  - lia.
  - lia.
  - lia.
  - reflexivity.
Defined.

(** ** Parameter preparation: keys that need no replacement, and keys that
    exhaust the pool *)

Lemma sample_multiplier_usable fuel buf idx f :
  usable_multiplier f ->
  sample_multiplier (S fuel) buf idx f
  = Some (Some (Z.land f (2 ^ 61 - 1), idx)).
Proof.
  unfold usable_multiplier. intros Hf. cbn [sample_multiplier].
  change (Z.shiftl 1 61 - 1) with (2 ^ 61 - 1).
  change modulo with (2 ^ 61 - 1).
  destruct (Z.eqb_spec (Z.land f (2 ^ 61 - 1)) 0) as [H0|_]; [lia|].
  destruct (Z.ltb_spec (Z.land f (2 ^ 61 - 1)) (2 ^ 61 - 1)) as [_|H1]; [|lia].
  reflexivity.
Qed.

Lemma sample_multiplier_rejects fuel buf idx f :
  ~ usable_multiplier f ->
  sample_multiplier (S fuel) buf idx f
  = match GET_RANDOM buf idx with
    | None => Some None
    | Some (g, idx') => sample_multiplier fuel buf idx' g
    end.
Proof.
  unfold usable_multiplier. intros Hf. cbn [sample_multiplier].
  change (Z.shiftl 1 61 - 1) with (2 ^ 61 - 1).
  change modulo with (2 ^ 61 - 1).
  assert (0 <= Z.land f (2 ^ 61 - 1)) by (apply Z.land_nonneg; right; lia).
  destruct (Z.eqb_spec (Z.land f (2 ^ 61 - 1)) 0) as [H0|H0]; [reflexivity|].
  destruct (Z.ltb_spec (Z.land f (2 ^ 61 - 1)) (2 ^ 61 - 1)) as [H1|H1];
    [lia | reflexivity].
Qed.

Lemma prepare_poly_usable buf i st :
  usable_multiplier (snd (nth i (poly (st_params st)) (0, 0))) ->
  prepare_poly buf i st
  = Some (true,
          {| st_params :=
               {| poly := <[i := derived_pair (nth i (poly (st_params st)) (0, 0))]>
                            (poly (st_params st));
                  ph := ph (st_params st) |};
             buf_idx := buf_idx st |}).
Proof.
  intros Hu. unfold prepare_poly. rewrite (sample_multiplier_usable _ _ _ _ Hu).
  unfold derived_pair. rewrite square_mod_modulo by exact Hu. reflexivity.
Qed.

Lemma value_is_repeated_NoDup l i :
  NoDup l -> (i < length l)%nat -> value_is_repeated l i (nth i l 0) = false.
Proof.
  intros Hnd Hi. unfold value_is_repeated.
  destruct (existsb _ _) eqn:He; [|reflexivity]. exfalso.
  apply existsb_exists in He as (x & Hin & Hx). apply Z.eqb_eq in Hx.
  apply list_elem_of_In, elem_of_take in Hin as (j & Hj & Hlt).
  destruct (lookup_lt_is_Some_2 l i Hi) as [y Hy].
  rewrite (nth_lookup_Some _ _ 0 _ Hy) in Hx. subst y.
  pose proof (NoDup_lookup _ _ _ _ Hnd Hj Hy). lia.
Qed.

Lemma for_each_unchanged body indices st :
  (forall i, In i indices -> body i st = Some (true, st)) ->
  for_each indices body st = Some (true, st).
Proof.
  induction indices as [|i rest IH]; intros Hb; [reflexivity|].
  cbn [for_each]. rewrite (Hb i (or_introl eq_refl)).
  apply IH. intros j Hj. apply Hb. now right.
Qed.

Lemma prepare_noise_unchanged buf st :
  NoDup (ph (st_params st)) -> length (ph (st_params st)) = PH_SIZE ->
  for_each (seq 0 PH_SIZE) (prepare_noise buf) st = Some (true, st).
Proof.
  intros Hnd Hlen. apply for_each_unchanged. intros i Hi.
  apply in_seq in Hi. unfold prepare_noise. cbn [replace_repeated].
  rewrite value_is_repeated_NoDup; [reflexivity | exact Hnd | lia].
Qed.

(** A key whose two raw multipliers are usable and whose noise words are
    distinct is prepared without touching the pool. *)
Lemma prepare_without_draw k :
  well_formed k ->
  Forall (fun p => usable_multiplier (snd p)) (poly k) ->
  NoDup (ph k) ->
  umash_params_prepare k
  = Some (true, {| poly := map derived_pair (poly k); ph := ph k |}).
Proof.
  intros [Hpl Hnl] Hu Hnd. destruct k as [pl nz]. cbn [poly ph] in *.
  destruct pl as [|p0 [|p1 [|]]]; try discriminate.
  apply Forall_cons in Hu as [Hu0 Hu1]. apply Forall_cons in Hu1 as [Hu1 _].
  unfold umash_params_prepare. cbn [seq POLY_SIZE for_each poly nth fst].
  rewrite prepare_poly_usable by exact Hu0. cbn -[derived_pair].
  rewrite prepare_poly_usable by exact Hu1. cbn -[derived_pair for_each seq].
  rewrite prepare_noise_unchanged by assumption. reflexivity.
Qed.

(** X9: preparation of a key that needs no replacement: when both raw base
    multipliers are usable (their low 61 bits are neither 0 nor 2^61 - 1)
    and the noise words are pairwise distinct, [umash_params_prepare]
    returns true, keeps the noise table, and sets each polynomial pair to
    the masked multiplier and its square modulo 2^61 - 1. *)
Theorem umash_params_prepare_clean k :
  well_formed k ->
  Forall (fun p => usable_multiplier (snd p)) (poly k) ->
  NoDup (ph k) ->
  umash_params_prepare k
  = Some (true, {| poly := map derived_pair (poly k); ph := ph k |}).
Proof. apply prepare_without_draw. Qed.

(** A multiplier with bits above the 61st, and junk in the pre-squared
    slots. *)
Lemma umash_params_prepare_clean_witness :
  umash_params_prepare
    {| poly := [(5, 2 ^ 63 + 3); (6, 7)]; ph := ph example_key |}
  = Some (true,
          {| poly := map derived_pair [(5, 2 ^ 63 + 3); (6, 7)];
             ph := ph example_key |}).
Proof.
  apply (umash_params_prepare_clean
           {| poly := [(5, 2 ^ 63 + 3); (6, 7)]; ph := ph example_key |}).
  - split; reflexivity.
  - repeat constructor; cbn; lia.
  - apply example_key_prepared.
Defined.

(** X10: preparation is the identity on prepared keys: a key that already
    satisfies the prepared-key invariants is returned unchanged, with
    true. *)
Theorem umash_params_prepare_fixed_point k :
  well_formed k -> prepared k -> umash_params_prepare k = Some (true, k).
Proof.
  intros Hwf [Hok Hnd].
  assert (Hmask : forall f, 0 < f < 2 ^ 61 - 1 -> Z.land f (2 ^ 61 - 1) = f).
  { intros f Hf. change (2 ^ 61 - 1) with (Z.ones 61).
    rewrite Z.land_ones by lia. apply Z.mod_small.
    change (Z.ones 61) with (2 ^ 61 - 1) in Hf. lia. }
  assert (Hmap : map derived_pair (poly k) = poly k).
  { clear Hwf Hnd. induction Hok as [|p pl [Hr Hsq] _ IH]; [reflexivity|].
    cbn [map]. f_equal; [|exact IH].
    destruct p as [sq f]. unfold derived_pair. cbn [fst snd] in *.
    rewrite (Hmask f Hr). now subst sq. }
  rewrite prepare_without_draw; try assumption.
  - rewrite Hmap. destruct k. reflexivity.
  - eapply Forall_impl; [exact Hok|]. intros [sq f] [Hr _].
    unfold usable_multiplier. cbn [snd] in *. now rewrite (Hmask f Hr).
Qed.

Lemma umash_params_prepare_fixed_point_witness :
  umash_params_prepare example_key = Some (true, example_key).
Proof.
  apply (umash_params_prepare_fixed_point example_key);
    apply example_key_prepared.
Defined.

(** X11: preparation fails when the pool is exhausted in the first
    rejection loop: if the first raw base multiplier and the two pool
    words (the two pre-squared slots) are all unusable, the function
    returns false and leaves the key as it was. *)
Theorem umash_params_prepare_exhausted sq0 f0 sq1 f1 noise :
  ~ usable_multiplier f0 -> ~ usable_multiplier sq0 ->
  ~ usable_multiplier sq1 ->
  umash_params_prepare {| poly := [(sq0, f0); (sq1, f1)]; ph := noise |}
  = Some (false, {| poly := [(sq0, f0); (sq1, f1)]; ph := noise |}).
Proof.
  intros H0 H1 H2. unfold umash_params_prepare.
  cbn [seq POLY_SIZE for_each poly nth fst]. unfold prepare_poly at 1.
  cbn [st_params buf_idx poly nth snd length].
  rewrite (sample_multiplier_rejects _ _ _ _ H0). cbn [GET_RANDOM length Nat.leb nth].
  rewrite (sample_multiplier_rejects _ _ _ _ H1). cbn [GET_RANDOM length Nat.leb nth].
  rewrite (sample_multiplier_rejects _ _ _ _ H2). cbn [GET_RANDOM length Nat.leb nth].
  reflexivity.
Qed.

(** The pool words 0 and 2^61 - 1, with a first multiplier whose low 61
    bits are 0. *)
Lemma umash_params_prepare_exhausted_witness :
  umash_params_prepare
    {| poly := [(0, 2 ^ 61); (2 ^ 61 - 1, 5)]; ph := ph example_key |}
  = Some (false,
          {| poly := [(0, 2 ^ 61); (2 ^ 61 - 1, 5)]; ph := ph example_key |}).
Proof.
  apply (umash_params_prepare_exhausted 0 (2 ^ 61) (2 ^ 61 - 1) 5
           (ph example_key));
    unfold usable_multiplier; vm_compute; intros [Ha Hb]; congruence.
Defined.

(** X12: [umash_params_prepare] always returns: each of its rejection
    loops stops after at most one more iteration than the pool has
    words. *)
Theorem umash_params_prepare_terminates k :
  exists b k', umash_params_prepare k = Some (b, k').
Proof.
  pose proof (prepare_total k) as H.
  destruct (umash_params_prepare k) as [[b k']|]; [eauto | congruence].
Qed.

(** ** Public dispatch: the argument [which] *)

(** X13: every nonzero [which] selects the second hash: it is normalised
    to 1, for the polynomial pair and for the noise slice. *)
Theorem umash_full_which_nonzero k seed which data n :
  which <> 0 ->
  umash_full k seed which data n = umash_full k seed 1 data n.
Proof.
  intros Hw. unfold umash_full.
  destruct (Z.eqb_spec which 0) as [|_]; [contradiction|]. reflexivity.
Qed.

Lemma umash_full_which_nonzero_witness :
  umash_full example_key 7 (-3) (input 0) 20
  = umash_full example_key 7 1 (input 0) 20.
Proof. apply (umash_full_which_nonzero example_key 7 (-3) (input 0) 20). lia. Defined.

(** ** The digest depends on the input bytes only *)

Section Respects.

Lemma respects_ret {A} (a : A) : respects (ret a).
Proof. intros mu1 mu2 _. reflexivity. Qed.

Lemma respects_load p : respects (load p).
Proof.
  intros mu1 mu2 H. unfold load. apply Forall_cons in H as [H _].
  now rewrite H.
Qed.

Lemma respects_bind {A B} (m : Read A) (k : A -> Read B) :
  respects m -> (forall a, respects (k a)) -> respects (bind m k).
Proof.
  intros Hm Hk mu1 mu2 H. rewrite trace_bind in H.
  apply Forall_app in H as [H1 H2].
  specialize (Hm mu1 mu2 H1). unfold value in H2.
  specialize (Hk (fst (m mu1)) mu1 mu2 H2).
  unfold bind. now rewrite <- Hm, <- Hk.
Qed.

Lemma respects_if {A} (c : bool) (m1 m2 : Read A) :
  respects m1 -> respects m2 -> respects (if c then m1 else m2).
Proof. now destruct c. Qed.

Lemma respects_load_bytes n : forall p, respects (load_bytes n p).
Proof.
  induction n as [|n IH]; intros p; [apply respects_ret|].
  cbn [load_bytes]. apply respects_bind; [apply respects_load|].
  intros b. apply respects_bind; [apply IH|]. intros bs. apply respects_ret.
Qed.

Lemma respects_memcpy p n : respects (memcpy p n).
Proof.
  unfold memcpy. apply respects_bind; [apply respects_load_bytes|].
  intros bs. apply respects_ret.
Qed.

Lemma respects_while {S} (cond : S -> bool) (body : S -> Read S) :
  (forall s, respects (body s)) ->
  forall fuel s, respects (while fuel cond body s).
Proof.
  intros Hb fuel. induction fuel as [|fuel IH]; intros s;
    [apply respects_ret|].
  cbn [while]. apply respects_if; [|apply respects_ret].
  apply respects_bind; [apply Hb | apply IH].
Qed.

End Respects.

Ltac respects_step :=
  first [ apply respects_ret
        | apply respects_memcpy
        | apply respects_while
        | apply respects_if
        | apply respects_bind
        | intros [[? ?] ?]
        | intros [? ?]
        | intro ].

Lemma respects_ph_pair_step params st : respects (ph_pair_step params st).
Proof. destruct st as [[i block] acc]. unfold ph_pair_step. repeat respects_step. Qed.

Lemma respects_ph_one_block params seed block :
  respects (ph_one_block params seed block).
Proof.
  unfold ph_one_block. apply respects_bind.
  - apply respects_while. apply respects_ph_pair_step.
  - intros [[i b] acc]. apply respects_ret.
Qed.

Lemma respects_ph_last_block params seed block n :
  respects (ph_last_block params seed block n).
Proof.
  unfold ph_last_block. apply respects_bind.
  - apply respects_while. apply respects_ph_pair_step.
  - intros [[i b] acc]. repeat respects_step.
Qed.

Lemma respects_vec_to_u64 data n : respects (vec_to_u64 data n).
Proof.
  unfold vec_to_u64. apply respects_bind.
  - apply respects_if; repeat respects_step.
  - intros [hi lo]. apply respects_ret.
Qed.

Lemma respects_umash_short params seed data n :
  respects (umash_short params seed data n).
Proof.
  unfold umash_short. apply respects_bind; [apply respects_vec_to_u64|].
  intros h. apply respects_ret.
Qed.

Lemma respects_umash_medium m p seed data n :
  respects (umash_medium m p seed data n).
Proof. unfold umash_medium. repeat respects_step. Qed.

Lemma respects_umash_long m p seed data n :
  respects (umash_long m p seed data n).
Proof.
  unfold umash_long. apply respects_bind.
  - apply respects_while. intros [[acc d] n']. unfold umash_long_step.
    apply respects_bind; [apply respects_ph_one_block|].
    intros c. apply respects_ret.
  - intros [[acc d] n'].
    apply respects_bind; [apply respects_ph_last_block|].
    intros c. apply respects_ret.
Qed.

Lemma respects_umash_full k seed which data n :
  respects (umash_full k seed which data n).
Proof.
  unfold umash_full.
  repeat apply respects_if;
    [apply respects_umash_short | apply respects_umash_medium
    | apply respects_umash_long].
Qed.

Lemma respects_fprint_loop one shift r0 :
  (forall i s, respects (one i s)) -> respects (fprint_loop one shift r0).
Proof.
  intros Ho. unfold fprint_loop. apply respects_bind.
  - apply respects_while. intros [[i s] r].
    apply respects_bind; [apply Ho|]. intros h. apply respects_ret.
  - intros [[i s] r]. apply respects_ret.
Qed.

Lemma respects_umash_fprint k seed data n :
  respects (umash_fprint k seed data n).
Proof.
  unfold umash_fprint.
  repeat apply respects_if; apply respects_fprint_loop; intros i s;
    [apply respects_umash_short | apply respects_umash_medium
    | apply respects_umash_long].
Qed.

Lemma same_reads_of_input mu1 mu2 d n tr :
  (forall o, d <= o < d + n -> mu1 o = mu2 o) ->
  Forall (fun o => d <= o < d + n) (input_offsets tr) ->
  same_reads mu1 mu2 tr.
Proof.
  intros Hmu Htr. apply Forall_input_offsets in Htr.
  eapply Forall_impl; [exact Htr|]. cbn. intros q Hq.
  unfold read_byte. destruct (obj q); [apply Hmu; now apply Hq|reflexivity].
Qed.

(** X14: a single hash depends on its [n] input bytes only: in two
    memories that hold the same bytes at offsets [0, n) of the input it
    returns the same digest (and loads the same addresses), whatever lies
    before or after the input. *)
Theorem umash_full_input_only k seed which d n mu1 mu2 :
  0 <= n < 2 ^ 64 ->
  (forall o, d <= o < d + n -> mu1 o = mu2 o) ->
  umash_full k seed which (input d) n mu1
  = umash_full k seed which (input d) n mu2.
Proof.
  intros Hn Hmu. apply respects_umash_full.
  apply (same_reads_of_input mu1 mu2 d n); [exact Hmu|].
  now apply umash_full_reads_within.
Qed.

(** Twenty bytes, in a zero-filled and in a 0xFF-filled memory. *)
Lemma umash_full_input_only_witness :
  umash_full example_key 7 0 (input 0) 20 zero_memory
  = umash_full example_key 7 0 (input 0) 20
      (fun o => if (0 <=? o) && (o <? 20) then x00 else xff).
Proof.
  apply (umash_full_input_only example_key 7 0 0 20 zero_memory
           (fun o => if (0 <=? o) && (o <? 20) then x00 else xff)).
  - lia.
  - intros o Ho. unfold zero_memory.
    destruct (Z.leb_spec 0 o); [|lia]. destruct (Z.ltb_spec o 20); [|lia].
    reflexivity.
Defined.

(** X15: a fingerprint depends on its [n] input bytes only: in two
    memories that hold the same bytes at offsets [0, n) of the input
    [umash_fprint] returns the same pair of digests and loads the same
    addresses, whatever lies before or after the input. *)
Theorem umash_fprint_input_only k seed d n mu1 mu2 :
  0 <= n < 2 ^ 64 ->
  (forall o, d <= o < d + n -> mu1 o = mu2 o) ->
  umash_fprint k seed (input d) n mu1 = umash_fprint k seed (input d) n mu2.
Proof.
  intros Hn Hmu. apply respects_umash_fprint.
  apply (same_reads_of_input mu1 mu2 d n); [exact Hmu|].
  now apply umash_fprint_reads_within.
Qed.

Lemma umash_fprint_input_only_witness :
  umash_fprint example_key 7 (input 0) 20 zero_memory
  = umash_fprint example_key 7 (input 0) 20
      (fun o => if (0 <=? o) && (o <? 20) then x00 else xff).
Proof.
  apply (umash_fprint_input_only example_key 7 0 20 zero_memory
           (fun o => if (0 <=? o) && (o <? 20) then x00 else xff)).
  - lia.
  - intros o Ho. unfold zero_memory.
    destruct (Z.leb_spec 0 o); [|lia]. destruct (Z.ltb_spec o 20); [|lia].
    reflexivity.
Defined.

(** ** The long and medium paths as polynomial hashes *)

Lemma ph_one_block_bits params seed block mu :
  is_u64 (fst (bits (value (ph_one_block params seed block) mu)))
  /\ is_u64 (snd (bits (value (ph_one_block params seed block) mu))).
Proof.
  unfold ph_one_block. rewrite value_bind.
  destruct (value (A := Z * ptr * Z) _ mu) as [[i b] acc]. unfold value, ret, ph_of_vec.
  cbn [fst snd bits]. unfold lo64, hi64, is_u64.
  split; apply Z.mod_pos_bound; lia.
Qed.

Lemma ph_last_block_bits params seed block n mu :
  is_u64 (fst (bits (value (ph_last_block params seed block n) mu)))
  /\ is_u64 (snd (bits (value (ph_last_block params seed block n) mu))).
Proof.
  unfold ph_last_block. rewrite value_bind.
  destruct (value (A := Z * ptr * Z) _ mu) as [[i b] acc]. rewrite !value_bind.
  unfold value at 1 3, ret, ph_of_vec.
  cbn [fst snd bits]. unfold lo64, hi64, is_u64.
  split; apply Z.mod_pos_bound; lia.
Qed.

Lemma horner_step_range m acc c : 0 <= horner_step m acc c < 2 ^ 64 - 8.
Proof. unfold horner_step. apply Z.mod_pos_bound. lia. Qed.

Lemma while_value_step {S} fuel (cond : S -> bool) (body : S -> Read S) s mu :
  cond s = true ->
  value (while (Datatypes.S fuel) cond body s) mu
  = value (while fuel cond body (value (body s) mu)) mu.
Proof. intros Hc. cbn [while]. rewrite Hc. apply value_bind. Qed.

Lemma umash_long_step_exact m p seed acc data n mu :
  value (umash_long_step m p seed (acc, data, n)) mu
  = (horner_double_update acc (fst m) (snd m)
       (fst (bits (value (ph_one_block p seed data) mu)))
       (snd (bits (value (ph_one_block p seed data) mu))),
     ptr_add data BLOCK_SIZE, u64 (n - BLOCK_SIZE)).
Proof. reflexivity. Qed.

(** The block loop and the last block, from any reduced accumulator. *)
Lemma umash_long_from m p seed mu :
  0 <= fst m < 2 ^ 61 -> 0 <= snd m < 2 ^ 61 ->
  forall k n data acc,
  k = Z.to_nat ((n - 1) / BLOCK_SIZE) -> 1 <= n < 2 ^ 64 ->
  0 <= acc < 2 ^ 64 - 8 ->
  value
    (let* (acc, data, n_bytes) :=
       while (Z.to_nat (n / BLOCK_SIZE))
         (fun '(_, _, n_bytes) => BLOCK_SIZE <? n_bytes)
         (umash_long_step m p seed) (acc, data, n) in
     let seed := Z.lxor seed (u8 n_bytes) in
     let* compressed := ph_last_block p seed data n_bytes in
     let acc :=
       horner_double_update acc (fst m) (snd m)
         (fst (bits compressed)) (snd (bits compressed)) in
     ret (finalize acc)) mu
  = finalize (fold_left (horner_step m) (long_blocks k p seed data n mu) acc).
Proof.
  intros Hm0 Hm1. change BLOCK_SIZE with 256.
  induction k as [|k IH]; intros n data acc Hk Hn Hacc.
  - assert (Hle : n <= 256) by (revert Hk; Z.div_mod_to_equations; lia).
    rewrite value_bind.
    rewrite while_false by (apply Z.ltb_ge; lia).
    unfold value at 2, ret. cbn [fst]. rewrite value_bind.
    unfold value at 1, ret. cbn [fst long_blocks fold_left].
    destruct (ph_last_block_bits p (Z.lxor seed (u8 n)) data n mu) as [B0 B1].
    rewrite horner_double_update_value;
      try assumption; try (unfold is_u64 in *; lia).
    reflexivity.
  - assert (Hgt : 256 < n) by (revert Hk; Z.div_mod_to_equations; lia).
    assert (Hf : Z.to_nat (n / 256) = S (Z.to_nat ((n - 256) / 256)))
      by (Z.div_mod_to_equations; lia).
    rewrite value_bind, Hf.
    rewrite while_value_step by (apply Z.ltb_lt; exact Hgt).
    rewrite umash_long_step_exact. change BLOCK_SIZE with 256.
    assert (Hu : u64 (n - 256) = n - 256)
      by (unfold u64; apply Z.mod_small; lia).
    rewrite Hu.
    destruct (ph_one_block_bits p seed data mu) as [B0 B1].
    rewrite horner_double_update_value;
      try assumption; try (unfold is_u64 in *; lia).
    cbn [long_blocks fold_left]. change BLOCK_SIZE with 256.
    pose proof (IH (n - 256) (ptr_add data 256)
                  (horner_step m acc (value (ph_one_block p seed data) mu))
                  ltac:(revert Hk; Z.div_mod_to_equations; lia)
                  ltac:(lia) (horner_step_range _ _ _)) as IH'.
    rewrite value_bind in IH'. exact IH'.
Qed.

(** X16: the long path is a polynomial hash of the PH values of its
    blocks: with multipliers below 2^61 and an input of [n] bytes, the
    digest is the finaliser applied to the Horner evaluation, modulo
    2^64 - 8 and from accumulator 0, over the PH values of the
    [(n - 1) / 256] full blocks followed by the one of the last block. *)
Theorem umash_long_polynomial m p seed data n mu :
  0 <= fst m < 2 ^ 61 -> 0 <= snd m < 2 ^ 61 -> 1 <= n < 2 ^ 64 ->
  value (umash_long m p seed data n) mu
  = finalize
      (fold_left (horner_step m)
         (long_blocks (Z.to_nat ((n - 1) / BLOCK_SIZE)) p seed data n mu) 0).
Proof.
  intros Hm0 Hm1 Hn. unfold umash_long.
  apply (umash_long_from m p seed mu Hm0 Hm1); [reflexivity | exact Hn | lia].
Qed.

(** Three blocks: two full ones and a last block of 88 bytes. *)
Lemma umash_long_polynomial_witness :
  value (umash_long (1, 1) (ph_at example_key 0) 7 (input 0) 600) zero_memory
  = finalize
      (fold_left (horner_step (1, 1))
         (long_blocks (Z.to_nat ((600 - 1) / BLOCK_SIZE)) (ph_at example_key 0)
            7 (input 0) 600 zero_memory) 0).
Proof.
  apply (umash_long_polynomial (1, 1) (ph_at example_key 0) 7 (input 0) 600
           zero_memory); cbn; lia.
Defined.

(** ** PH block compression, in closed form *)

Lemma land_lxor_distr a b c :
  Z.land (Z.lxor a b) c = Z.lxor (Z.land a c) (Z.land b c).
Proof.
  apply Z.bits_inj'. intros n _. rewrite !Z.lxor_spec, !Z.land_spec, Z.lxor_spec.
  destruct (Z.testbit a n), (Z.testbit b n), (Z.testbit c n); reflexivity.
Qed.

Lemma lo64_lxor a b : lo64 (Z.lxor a b) = Z.lxor (lo64 a) (lo64 b).
Proof.
  unfold lo64. rewrite <- !Z.land_ones by lia. apply land_lxor_distr.
Qed.

Lemma hi64_lxor a b : hi64 (Z.lxor a b) = Z.lxor (hi64 a) (hi64 b).
Proof.
  unfold hi64. rewrite <- !Z.shiftr_div_pow2 by lia.
  rewrite <- !Z.land_ones by lia. rewrite Z.shiftr_lxor.
  apply land_lxor_distr.
Qed.

Lemma halves_of_pair lo hi :
  is_u64 lo -> is_u64 hi ->
  lo64 (lo + 2 ^ 64 * hi) = lo /\ hi64 (lo + 2 ^ 64 * hi) = hi.
Proof.
  unfold is_u64, lo64, hi64. intros Hl Hh. Z.div_mod_to_equations. lia.
Qed.

Lemma le_word_app mu b : forall a o,
  le_word mu o (a + b)
  = le_word mu o a + 2 ^ (8 * Z.of_nat a) * le_word mu (o + Z.of_nat a) b.
Proof.
  induction a as [|a IH]; intros o.
  - cbn [le_word Nat.add Z.of_nat]. rewrite Z.add_0_r. cbn. lia.
  - cbn [le_word Nat.add]. rewrite IH.
    replace (o + 1 + Z.of_nat a) with (o + Z.of_nat (S a)) by lia.
    replace (8 * Z.of_nat (S a)) with (8 + 8 * Z.of_nat a) by lia.
    rewrite Z.pow_add_r by lia. ring.
Qed.

Lemma le_word_16 mu o :
  le_word mu o 16 = le_word mu o 8 + 2 ^ 64 * le_word mu (o + 8) 8.
Proof. exact (le_word_app mu 8 8 o). Qed.

Lemma le_word_8_u64 mu o : is_u64 (le_word mu o 8).
Proof. exact (le_word_range mu 8 o). Qed.

(** One iteration of the PH loops: the 16 bytes at [o] are loaded as two
    words, each is XORed with its noise word, and the carry-less product
    of the high word by the low word is XORed into the accumulator. *)
Lemma ph_pair_step_exact p i o acc mu :
  value (ph_pair_step p (i, input o, acc)) mu
  = (i + 2, input (o + 16), Z.lxor acc (ph_pair p mu o i)).
Proof.
  unfold ph_pair_step. rewrite value_bind, memcpy_input_value.
  unfold value, ret. cbn [fst]. f_equal. f_equal.
  unfold _mm_clmulepi64_si128, ph_pair.
  change (Z.testbit 1 0) with true. change (Z.testbit 1 4) with false.
  cbv iota. rewrite hi64_lxor, lo64_lxor, le_word_16.
  destruct (halves_of_pair (le_word mu o 8) (le_word mu (o + 8) 8)
              (le_word_8_u64 mu o) (le_word_8_u64 mu (o + 8))) as [-> ->].
  destruct (halves_of_pair (u64 (p i)) (u64 (p (i + 1)))
              (u64_range _) (u64_range _)) as [-> ->].
  reflexivity.
Qed.

(** The PH loops, run for their trip count. *)
Lemma ph_loop_value p mu bound : forall count i o acc,
  i + 2 * Z.of_nat count = bound ->
  value (while count (fun '(i, _, _) => i <? bound) (ph_pair_step p)
           (i, input o, acc)) mu
  = (bound, input (o + 16 * Z.of_nat count), ph_pairs count p mu o i acc).
Proof.
  induction count as [|count IH]; intros i o acc Hb.
  - cbn [while ph_pairs]. unfold value, ret. cbn [fst Z.of_nat].
    repeat f_equal; lia.
  - rewrite while_value_step by (apply Z.ltb_lt; lia).
    rewrite ph_pair_step_exact, IH by lia.
    cbn [ph_pairs]. f_equal. f_equal. f_equal. lia.
Qed.

Lemma ph_one_block_value p seed d mu :
  value (ph_one_block p seed (input d)) mu
  = ph_of_vec (ph_pairs 16 p mu d 0 (u64 seed)).
Proof.
  unfold ph_one_block. rewrite value_bind.
  change (Z.to_nat ((UMASH_PH_PARAM_COUNT + 1) / 2)) with 16%nat.
  rewrite (ph_loop_value p mu UMASH_PH_PARAM_COUNT 16 0 d) by reflexivity.
  reflexivity.
Qed.

Lemma ph_last_block_value p seed d n mu :
  1 <= n <= 256 ->
  value (ph_last_block p seed (input d) n) mu
  = ph_of_vec
      (Z.lxor
         (ph_pairs (Z.to_nat ((n - 1) / 16)) p mu d 0 (u64 seed))
         (clmul_bits 64
            (u64 (Z.lxor (le_word mu (d + (n - 16)) 8)
                         (p (2 * ((n - 1) / 16)))))
            (u64 (Z.lxor (le_word mu (d + (n - 16) + 8) 8)
                         (p (2 * ((n - 1) / 16) + 1)))))).
Proof.
  intros Hn. unfold ph_last_block. rewrite (end_full_pairs_value n Hn).
  rewrite value_bind.
  replace (Z.to_nat ((2 * ((n - 1) / 16) + 1) / 2))
    with (Z.to_nat ((n - 1) / 16)) by (Z.div_mod_to_equations; lia).
  rewrite (ph_loop_value p mu (2 * ((n - 1) / 16)) _ 0 d)
    by (rewrite Z2Nat.id; Z.div_mod_to_equations; lia).
  rewrite !value_bind.
  change (ptr_add (input d) (n - 16)) with (input (d + (n - 16))).
  change (ptr_add (input (d + (n - 16))) 8) with (input (d + (n - 16) + 8)).
  rewrite !memcpy_input_value. unfold value, ret. cbn [fst].
  unfold _mm_clmulepi64_si128, _mm_cvtsi64_si128.
  change (Z.testbit 0 0) with false. change (Z.testbit 0 4) with false.
  cbv iota. unfold lo64, u64. rewrite !Z.mod_mod by lia. reflexivity.
Qed.

(** ** The carry-less product is commutative *)

Lemma lxor_swap_inner a b c d :
  Z.lxor (Z.lxor a b) (Z.lxor c d) = Z.lxor (Z.lxor a c) (Z.lxor b d).
Proof.
  apply Z.bits_inj'. intros n _. rewrite !Z.lxor_spec.
  destruct (Z.testbit a n), (Z.testbit b n), (Z.testbit c n), (Z.testbit d n);
    reflexivity.
Qed.

Lemma clmul_bits_0_l n b : clmul_bits n 0 b = 0.
Proof.
  induction n as [|n IH]; [reflexivity|].
  cbn [clmul_bits]. rewrite IH, Z.shiftl_0_l. now destruct (Z.testbit b _).
Qed.

Lemma clmul_bits_lxor_l n a a' b :
  clmul_bits n (Z.lxor a a') b
  = Z.lxor (clmul_bits n a b) (clmul_bits n a' b).
Proof.
  induction n as [|n IH]; [reflexivity|].
  cbn [clmul_bits]. rewrite IH.
  destruct (Z.testbit b _).
  - rewrite Z.shiftl_lxor. apply lxor_swap_inner.
  - now rewrite !Z.lxor_0_l.
Qed.

Lemma low_bits_succ b n :
  0 <= n ->
  b mod 2 ^ (n + 1)
  = Z.lxor (if Z.testbit b n then 2 ^ n else 0) (b mod 2 ^ n).
Proof.
  intros Hn. apply Z.bits_inj'. intros i Hi.
  rewrite Z.lxor_spec, !Z.testbit_mod_pow2 by lia.
  destruct (Z.eq_dec i n) as [->|Hne].
  - replace (n <? n + 1) with true by (symmetry; apply Z.ltb_lt; lia).
    rewrite Z.ltb_irrefl. cbn [andb]. rewrite xorb_false_r.
    destruct (Z.testbit b n) eqn:E.
    + now rewrite Z.pow2_bits_true.
    + now rewrite Z.bits_0.
  - assert (Hb : Z.testbit (if Z.testbit b n then 2 ^ n else 0) i = false).
    { destruct (Z.testbit b n); [|apply Z.bits_0].
      apply Z.pow2_bits_false. lia. }
    rewrite Hb, xorb_false_l. f_equal.
    destruct (Z.ltb_spec i (n + 1)), (Z.ltb_spec i n); try reflexivity; lia.
Qed.

Lemma clmul_bits_bit n k b :
  0 <= k ->
  clmul_bits n (2 ^ k) b = Z.shiftl (b mod 2 ^ Z.of_nat n) k.
Proof.
  intros Hk. induction n as [|n IH].
  - cbn [clmul_bits Z.of_nat]. now rewrite Z.pow_0_r, Z.mod_1_r, Z.shiftl_0_l.
  - cbn [clmul_bits]. rewrite IH.
    replace (Z.of_nat (S n)) with (Z.of_nat n + 1) by lia.
    rewrite (low_bits_succ b (Z.of_nat n)) by lia.
    rewrite Z.shiftl_lxor.
    destruct (Z.testbit b _).
    + f_equal. rewrite !Z.shiftl_mul_pow2 by lia. ring.
    + now rewrite Z.shiftl_0_l.
Qed.

Lemma clmul_bits_low_comm n : forall a b,
  clmul_bits n (a mod 2 ^ Z.of_nat n) b
  = clmul_bits n (b mod 2 ^ Z.of_nat n) a.
Proof.
  induction n as [|n IH]; intros a b; [reflexivity|].
  cbn [clmul_bits].
  replace (Z.of_nat (S n)) with (Z.of_nat n + 1) by lia.
  rewrite (low_bits_succ a (Z.of_nat n)), (low_bits_succ b (Z.of_nat n))
    by lia.
  rewrite !clmul_bits_lxor_l, (IH a b).
  destruct (Z.testbit a (Z.of_nat n)), (Z.testbit b (Z.of_nat n));
    rewrite ?clmul_bits_bit, ?clmul_bits_0_l, ?Z.shiftl_lxor, ?Z.shiftl_0_l
      by lia;
    apply Z.bits_inj'; intros i _; rewrite !Z.lxor_spec, ?Z.bits_0;
    repeat match goal with
           | |- context [Z.testbit ?x ?j] => destruct (Z.testbit x j)
           end;
    reflexivity.
Qed.

Lemma clmul_bits_comm a b :
  is_u64 a -> is_u64 b -> clmul_bits 64 a b = clmul_bits 64 b a.
Proof.
  unfold is_u64. intros Ha Hb.
  rewrite <- (Z.mod_small a (2 ^ Z.of_nat 64)) at 1 by exact Ha.
  rewrite clmul_bits_low_comm. now rewrite Z.mod_small by exact Hb.
Qed.

(** ** The seed of a PH block, and whole blocks *)

Lemma ph_pairs_acc p mu count : forall o i acc,
  ph_pairs count p mu o i acc = Z.lxor acc (ph_pairs count p mu o i 0).
Proof.
  induction count as [|count IH]; intros o i acc; cbn [ph_pairs].
  - now rewrite Z.lxor_0_r.
  - rewrite IH, (IH _ _ (Z.lxor 0 _)), Z.lxor_0_l. apply Z.lxor_assoc.
Qed.

Lemma ph_pairs_snoc p mu count : forall o i acc,
  ph_pairs (S count) p mu o i acc
  = Z.lxor (ph_pairs count p mu o i acc)
      (ph_pair p mu (o + 16 * Z.of_nat count) (i + 2 * Z.of_nat count)).
Proof.
  induction count as [|count IH]; intros o i acc.
  - cbn [ph_pairs Z.of_nat]. now rewrite !Z.mul_0_r, !Z.add_0_r.
  - change (ph_pairs (S (S count)) p mu o i acc)
      with (ph_pairs (S count) p mu (o + 16) (i + 2)
              (Z.lxor acc (ph_pair p mu o i))).
    rewrite IH. cbn [ph_pairs]. do 2 f_equal; lia.
Qed.

Lemma ph_of_vec_seed seed x :
  ph_of_vec (Z.lxor (u64 seed) x)
  = {| bits := (Z.lxor (u64 seed) (fst (bits (ph_of_vec x))),
                snd (bits (ph_of_vec x))) |}.
Proof.
  unfold ph_of_vec. cbn [bits fst snd]. rewrite lo64_lxor, hi64_lxor.
  assert (Hl : lo64 (u64 seed) = u64 seed)
    by (unfold lo64, u64; apply Z.mod_mod; lia).
  assert (Hh : hi64 (u64 seed) = 0)
    by (unfold hi64, u64; Z.div_mod_to_equations; lia).
  now rewrite Hl, Hh, Z.lxor_0_l.
Qed.

Lemma u64_lxor a b : u64 (Z.lxor a b) = Z.lxor (u64 a) (u64 b).
Proof. exact (lo64_lxor a b). Qed.

Lemma u64_small z : is_u64 z -> u64 z = z.
Proof. unfold is_u64, u64. intros H. now apply Z.mod_small. Qed.

(** When the byte count of the last block is a multiple of 16, its
    trailing 16 bytes are the pair after the leading ones, multiplied with
    the operands in the other order. *)
Lemma ph_last_block_pairs p seed d n mu :
  16 <= n <= 256 -> n mod 16 = 0 ->
  value (ph_last_block p seed (input d) n) mu
  = ph_of_vec (ph_pairs (Z.to_nat (n / 16)) p mu d 0 (u64 seed)).
Proof.
  intros Hn Hmod. rewrite ph_last_block_value by lia. f_equal.
  assert (Hc : Z.to_nat (n / 16) = S (Z.to_nat ((n - 1) / 16)))
    by (Z.div_mod_to_equations; lia).
  rewrite Hc, ph_pairs_snoc. f_equal.
  rewrite Z2Nat.id by (Z.div_mod_to_equations; lia).
  replace (d + 16 * ((n - 1) / 16)) with (d + (n - 16))
    by (Z.div_mod_to_equations; lia).
  replace (0 + 2 * ((n - 1) / 16)) with (2 * ((n - 1) / 16)) by lia.
  unfold ph_pair. rewrite !u64_lxor.
  rewrite !(u64_small (le_word _ _ 8)) by apply le_word_8_u64.
  apply clmul_bits_comm.
  - rewrite <- (u64_small (le_word mu (d + (n - 16)) 8))
      by apply le_word_8_u64.
    rewrite <- u64_lxor. apply u64_range.
  - rewrite <- (u64_small (le_word mu (d + (n - 16) + 8) 8))
      by apply le_word_8_u64.
    rewrite <- u64_lxor. apply u64_range.
Qed.

(** X17: the seed of a full PH block is XORed into the low 64 bits of the
    compressed value and does not touch the high 64 bits: compressing a
    block with seed [seed] gives the value compressed with seed 0, with
    [seed mod 2^64] XORed into [bits[0]]. *)
Theorem ph_one_block_seed p seed d mu :
  value (ph_one_block p seed (input d)) mu
  = {| bits :=
         (Z.lxor (u64 seed)
            (fst (bits (value (ph_one_block p 0 (input d)) mu))),
          snd (bits (value (ph_one_block p 0 (input d)) mu))) |}.
Proof.
  rewrite !ph_one_block_value.
  rewrite (ph_pairs_acc p mu 16 d 0 (u64 seed)).
  rewrite (ph_pairs_acc p mu 16 d 0 (u64 0)).
  change (u64 0) with 0. rewrite Z.lxor_0_l.
  apply ph_of_vec_seed.
Qed.

(** X18: the same for the last block of [n] bytes, [1 <= n <= 256]: the
    seed (in [umash_long], the caller's seed XOR the low byte of the
    remaining length) changes the low 64 bits of the compressed value
    only, by XOR. *)
Theorem ph_last_block_seed p seed d n mu :
  1 <= n <= 256 ->
  value (ph_last_block p seed (input d) n) mu
  = {| bits :=
         (Z.lxor (u64 seed)
            (fst (bits (value (ph_last_block p 0 (input d) n) mu))),
          snd (bits (value (ph_last_block p 0 (input d) n) mu))) |}.
Proof.
  intros Hn. rewrite !ph_last_block_value by exact Hn.
  rewrite (ph_pairs_acc p mu _ d 0 (u64 seed)).
  rewrite (ph_pairs_acc p mu _ d 0 (u64 0)).
  change (u64 0) with 0. rewrite Z.lxor_0_l, Z.lxor_assoc.
  apply ph_of_vec_seed.
Qed.

Lemma ph_last_block_seed_witness :
  value (ph_last_block (ph_at example_key 0) 7 (input 0) 40) zero_memory
  = {| bits :=
         (Z.lxor (u64 7)
            (fst (bits (value (ph_last_block (ph_at example_key 0) 0
                                 (input 0) 40) zero_memory))),
          snd (bits (value (ph_last_block (ph_at example_key 0) 0
                              (input 0) 40) zero_memory))) |}.
Proof.
  apply (ph_last_block_seed (ph_at example_key 0) 7 0 40 zero_memory). lia.
Defined.

(** X19: for a last block whose byte count [n] is a multiple of 16 (16,
    32, ..., 256) the trailing 16 bytes are the pair that follows the
    leading ones, and the compressed value is the seed XOR the carry-less
    products of the [n / 16] keyed pairs of 64-bit words of the block,
    word [2 j + 1] XOR noise word [2 j + 1] times word [2 j] XOR noise
    word [2 j]. *)
Theorem ph_last_block_whole_pairs p seed d n mu :
  16 <= n <= 256 -> n mod 16 = 0 ->
  value (ph_last_block p seed (input d) n) mu
  = ph_of_vec (ph_pairs (Z.to_nat (n / 16)) p mu d 0 (u64 seed)).
Proof. exact (ph_last_block_pairs p seed d n mu). Qed.

Lemma ph_last_block_whole_pairs_witness :
  value (ph_last_block (ph_at example_key 0) 7 (input 0) 32) zero_memory
  = ph_of_vec
      (ph_pairs (Z.to_nat (32 / 16)) (ph_at example_key 0) zero_memory 0 0
         (u64 7)).
Proof.
  apply (ph_last_block_whole_pairs (ph_at example_key 0) 7 0 32 zero_memory);
    [lia | reflexivity].
Defined.

(** X20: on a block of exactly [BLOCK_SIZE] = 256 bytes the last-block
    variant computes the same value as the full-block compressor, for
    every noise table, seed and memory: [umash_long] may hand a final
    block of 256 bytes to [ph_last_block]. *)
Theorem ph_last_block_full_block p seed d mu :
  value (ph_last_block p seed (input d) BLOCK_SIZE) mu
  = value (ph_one_block p seed (input d)) mu.
Proof.
  rewrite ph_one_block_value.
  apply (ph_last_block_pairs p seed d 256 mu); [lia | reflexivity].
Qed.

(** ** Memory safety and the noise words of one digest *)

(** X21: [umash_full] is memory safe on its input: for every key, seed,
    [which], memory and length [n] that fits [size_t], every input byte
    it loads lies in [[data, data + n)]; in particular the empty input is
    never dereferenced. *)
Theorem umash_full_memory_safe k seed which d n mu :
  0 <= n < 2 ^ 64 ->
  Forall (fun o => d <= o < d + n)
    (input_offsets (trace (umash_full k seed which (input d) n) mu)).
Proof. exact (umash_full_reads_within k seed which d n mu). Qed.

Lemma umash_full_memory_safe_witness :
  Forall (fun o => 0 <= o < 0 + 300)
    (input_offsets
       (trace (umash_full example_key 7 0 (input 0) 300) zero_memory)).
Proof.
  apply (umash_full_memory_safe example_key 7 0 0 300 zero_memory). lia.
Defined.

(** X22: [umash_fprint] is memory safe on its input: both passes over the
    data load bytes of [[data, data + n)] only. *)
Theorem umash_fprint_memory_safe k seed d n mu :
  0 <= n < 2 ^ 64 ->
  Forall (fun o => d <= o < d + n)
    (input_offsets (trace (umash_fprint k seed (input d) n) mu)).
Proof. exact (umash_fprint_reads_within k seed d n mu). Qed.

Lemma umash_fprint_memory_safe_witness :
  Forall (fun o => 0 <= o < 0 + 20)
    (input_offsets
       (trace (umash_fprint example_key 7 (input 0) 20) zero_memory)).
Proof.
  apply (umash_fprint_memory_safe example_key 7 0 20 zero_memory). lia.
Defined.

(** X23: the noise words one digest depends on.  From the slice that
    starts at [shift] (0, or the Toeplitz offset when [which] is not 0)
    [umash_full] uses the single word [n] when [n <= 8], words 0 and 1
    when [9 <= n <= 16], the first [2 * ((n - 1) / 16) + 2] words when
    [17 <= n <= 256], and all 32 words of the slice beyond: two keys with
    the same polynomial pairs that agree on these words give the same
    digest and the same loads. *)
Theorem umash_full_noise_words k k' seed which data n mu :
  0 <= n < 2 ^ 64 ->
  poly k' = poly k ->
  (forall i, noise_used n i ->
     ph_at k (if which =? 0 then 0 else UMASH_PH_TOEPLITZ_SHIFT) i
     = ph_at k' (if which =? 0 then 0 else UMASH_PH_TOEPLITZ_SHIFT) i) ->
  umash_full k seed which data n mu = umash_full k' seed which data n mu.
Proof. exact (umash_full_footprint k k' seed which data n mu). Qed.

(** Changing noise word 4 does not change the first digest of a 3-byte
    input. *)
Lemma umash_full_noise_words_witness :
  umash_full example_key 7 0 (input 0) 3 zero_memory
  = umash_full example_key_4 7 0 (input 0) 3 zero_memory.
Proof.
  apply (umash_full_noise_words example_key example_key_4 7 0 (input 0) 3
           zero_memory); [lia | reflexivity |].
  intros i Hi. unfold noise_used in Hi. cbn in Hi. subst i. reflexivity.
Defined.

(** ** The boundary between the medium and the long path *)

Lemma ptr_add_0 data : ptr_add data 0 = data.
Proof. destruct data as [o f]. unfold ptr_add. cbn. f_equal. lia. Qed.

Lemma ptr_add_add data a b : ptr_add (ptr_add data a) b = ptr_add data (a + b).
Proof. unfold ptr_add. cbn. f_equal. lia. Qed.

Lemma umash_long_16_value m p seed d mu :
  value (umash_long m p seed (input d) 16) mu
  = value (umash_medium m p seed (input d) 16) mu.
Proof.
  unfold umash_long, umash_medium.
  change (Z.to_nat (16 / BLOCK_SIZE)) with 0%nat.
  cbn [while]. rewrite value_bind.
  change (value (ret (0, input d, 16)) mu) with (0, input d, 16).
  cbv iota beta. rewrite !value_bind.
  rewrite ph_last_block_value by lia.
  change (ptr_add (input d) (16 - 8)) with (input (d + 8)).
  rewrite !memcpy_input_value.
  change ((16 - 1) / 16) with 0. change (Z.to_nat 0) with 0%nat.
  cbn [ph_pairs]. change (2 * 0) with 0. change (0 + 1) with 1.
  change (16 - 16) with 0. rewrite Z.add_0_r.
  unfold value, ret. cbn [fst]. unfold ph_of_vec. cbn [bits fst snd].
  unfold _mm_clmulepi64_si128, _mm_cvtsi64_si128.
  change (Z.testbit 0 0) with false. change (Z.testbit 0 4) with false.
  cbv iota. change (u8 16) with 16.
  assert (Hl : forall z, lo64 (u64 z) = u64 z)
    by (intros z; unfold lo64, u64; apply Z.mod_mod; lia).
  rewrite !Hl. reflexivity.
Qed.

(** X24: the medium and the long path agree at the boundary between
    them: on an input of 16 bytes [umash_long] (never called there, since
    [umash_full] sends [n <= 16] to [umash_medium]) returns the digest of
    [umash_medium], for every pair of multipliers, noise table, seed and
    input. *)
Theorem umash_medium_meets_long m p seed d mu :
  value (umash_medium m p seed (input d) 16) mu
  = value (umash_long m p seed (input d) 16) mu.
Proof. symmetry. apply umash_long_16_value. Qed.

(** ** The second hash as a first hash *)

Lemma ph_at_second_key k i :
  0 <= i -> ph_at (second_key k) 0 i = ph_at k UMASH_PH_TOEPLITZ_SHIFT i.
Proof.
  intros Hi. unfold ph_at, second_key. cbn [ph].
  rewrite nth_skipn. f_equal. change UMASH_PH_TOEPLITZ_SHIFT with 4. lia.
Qed.

Lemma poly_at_second_key k : poly_at (second_key k) 0 = poly_at k 1.
Proof. unfold poly_at, second_key. cbn [poly]. now rewrite nth_skipn. Qed.

(** X25: the second hash is the first hash under another key.  For every
    nonzero [which], [umash_full] computes what it computes with
    [which = 0] under the key made of the second polynomial pair and of the
    noise words from index 4 on, with the same loads: the two halves of a
    fingerprint run one algorithm over two windows of the key. *)
Theorem umash_full_second_is_first k seed which data n mu :
  which <> 0 -> 0 <= n < 2 ^ 64 ->
  umash_full k seed which data n mu
  = umash_full (second_key k) seed 0 data n mu.
Proof.
  intros Hw Hn. unfold umash_full.
  change (0 =? 0) with true. cbv iota.
  replace (which =? 0) with false by (symmetry; apply Z.eqb_neq; exact Hw).
  rewrite poly_at_second_key.
  destruct (Z.leb_spec n 16) as [H16|H16].
  - destruct (Z.leb_spec n 8) as [H8|H8].
    + unfold umash_short. now rewrite ph_at_second_key by lia.
    + unfold umash_medium. now rewrite !ph_at_second_key by lia.
  - apply umash_long_ext; [lia|].
    intros i Hi. symmetry. apply ph_at_second_key.
    destruct (n <=? 256); lia.
Qed.

Lemma umash_full_second_is_first_witness :
  umash_full example_key 7 1 (input 0) 300 zero_memory
  = umash_full (second_key example_key) 7 0 (input 0) 300 zero_memory.
Proof.
  apply (umash_full_second_is_first example_key 7 1 (input 0) 300
           zero_memory); lia.
Defined.
